(** * Tutel MoE: sparse dispatcher and differentiable collectives

    A shallow embedding of [tutel/impls/fast_dispatch.py] and
    [tutel/impls/communicate.py].

    Conventions of the embedding.
    - Tensor elements are exact integers ([Z]): the rounding of float16 and
      float32 is not modelled, so [x.to(dtype)] keeps the values, and the
      half2 packing (two float16 values per lane) is a memory layout that
      the row-level model does not show.
    - A Python method that mutates [self] and may raise returns the outcome
      together with the mutated object.
    - The JIT kernel builders of [tutel/jit_kernels/sparse.py] and the
      collectives of [torch.distributed] are not part of the embedded
      files; their models are marked where they are introduced. *)

From Stdlib Require Import ZArith Lia Bool.
From stdpp Require Import base option list gmap.

Local Open Scope Z_scope.

(** ** Exceptions and outcomes *)

Inductive exn : Type :=
  | IndexError
  | AttributeError
  | AssertionError
  | RuntimeError
  | CommError.

Inductive outcome (A : Type) : Type :=
  | Ok (a : A)
  | Raise (e : exn).
Arguments Ok {A} a.
Arguments Raise {A} e.

Definition is_ok {A} (o : outcome A) : bool :=
  match o with Ok _ => true | Raise _ => false end.

Definition is_some {A} (o : option A) : bool :=
  match o with Some _ => true | None => false end.

#[global] Instance outcome_ret : MRet outcome := fun A a => Ok a.
#[global] Instance outcome_bind : MBind outcome := fun A B f o =>
  match o with Ok a => f a | Raise e => Raise e end.

(** Read of an attribute that may not have been assigned yet. *)
Definition attr {A} (o : option A) : outcome A :=
  match o with Some a => Ok a | None => Raise AttributeError end.

(** [l[i]] on a Python list. *)
Definition item {A} (l : list A) (i : nat) : outcome A :=
  match l !! i with Some a => Ok a | None => Raise IndexError end.

(** A [for] loop whose body may raise. *)
Fixpoint for_each {A S} (f : S -> A -> outcome S) (s : S) (l : list A) : outcome S :=
  match l with
  | [] => Ok s
  | a :: l' => s' ← f s a; for_each f s' l'
  end.

(** ** Element types *)

Inductive dtype : Type :=
  | float16
  | float32
  | bfloat16
  | float64
  | unrecognized_dtype.

Definition dtype_eqb (a b : dtype) : bool :=
  match a, b with
  | float16, float16 | float32, float32 | bfloat16, bfloat16
  | float64, float64 | unrecognized_dtype, unrecognized_dtype => true
  | _, _ => false
  end.

(** [x.to(torch.int32)]: two's complement wrap-around to 32 bits. *)
Definition to_int32 (z : Z) : Z := (z + 2 ^ 31) mod 2 ^ 32 - 2 ^ 31.

(** ** Vectors and matrices (rows of a 2-d tensor) *)

Definition vadd (u v : list Z) : list Z := zip_with Z.add u v.
Definition vscale (g : Z) (v : list Z) : list Z := map (Z.mul g) v.
Definition vzeros (n : nat) : list Z := replicate n 0.
Definition madd (a b : list (list Z)) : list (list Z) := zip_with vadd a b.
Definition sumZ (l : list Z) : Z := foldr Z.add 0 l.

(** [torch.zeros([rows, cols])]; a negative dimension is a RuntimeError. *)
Definition torch_zeros (rows cols : Z) : outcome (list (list Z)) :=
  if (rows <? 0) || (cols <? 0) then Raise RuntimeError
  else Ok (replicate (Z.to_nat rows) (vzeros (Z.to_nat cols))).

(** Read of element [(r, j)] of a matrix, [0] outside it. *)
Definition cell (m : list (list Z)) (r : nat) (j : nat) : Z :=
  match m !! r with
  | Some row => default 0 (row !! j)
  | None => 0
  end.

(** Lookup by a machine integer: nothing at a negative index. *)
Definition zlookup {A} (l : list A) (z : Z) : option A :=
  if z <? 0 then None else l !! Z.to_nat z.

(** * The sparse dispatcher ([fast_dispatch.py]) *)

Module Dispatch.

(** ** Specialized kernels

    Modelled from the spec: the kernel builders [jit_kernel.create_forward],
    [create_backward_data] and [create_backward_gate] live in
    [tutel/jit_kernels/sparse.py], which is not among the embedded files.
    A built kernel is the record of the values it was specialized with; the
    launch functions below give what the spec says the kernels compute
    (section 4.2: [dispatch_buffer[e*capacity+s] += features[t]] for every
    token with [s < capacity], out-of-capacity tokens skipped; the inverse
    gather pulls the row of the assigned slot, zero if dropped). *)

Inductive kernel_kind : Type := KForward | KBackwardData | KBackwardGate.

Record kernel : Type := mk_kernel {
  k_kind : kernel_kind;
  k_samples : Z;
  k_experts : Z;
  k_capacity : Z;
  k_hidden : Z;
  k_dtype : dtype
}.

(** The log of the kernels a dispatcher asked the JIT to build, oldest
    first. *)
Abbreviation jit_log := (list kernel).

(** Modelled from the spec: [jit_kernel.create_forward] (section 4.1,
    deterministic given its arguments); the build is entered in the log. *)
Definition create_forward (samples experts capacity hidden : Z) (dt : dtype)
    (jit : jit_log) : kernel * jit_log :=
  let k := mk_kernel KForward samples experts capacity hidden dt in (k, jit ++ [k]).

(** Modelled from the spec: [jit_kernel.create_backward_data], as
    [create_forward]. *)
Definition create_backward_data (samples experts capacity hidden : Z) (dt : dtype)
    (jit : jit_log) : kernel * jit_log :=
  let k := mk_kernel KBackwardData samples experts capacity hidden dt in (k, jit ++ [k]).

(** Modelled from the spec: [jit_kernel.create_backward_gate], as
    [create_forward]. *)
Definition create_backward_gate (samples experts capacity hidden : Z) (dt : dtype)
    (jit : jit_log) : kernel * jit_log :=
  let k := mk_kernel KBackwardGate samples experts capacity hidden dt in (k, jit ++ [k]).

Definition kind_eqb (a b : kernel_kind) : bool :=
  match a, b with
  | KForward, KForward | KBackwardData, KBackwardData
  | KBackwardGate, KBackwardGate => true
  | _, _ => false
  end.

(** How often the kernel of a kind was built for the shape key [(s, c)]. *)
Definition is_build (kind : kernel_kind) (s c : Z) (k : kernel) : bool :=
  kind_eqb (k_kind k) kind && (k_samples k =? s) && (k_capacity k =? c).

Definition build_count (kind : kernel_kind) (s c : Z) (jit : jit_log) : nat :=
  length (filter (fun k => is_build kind s c k = true) jit).

(** The flat row of slot [(e, s)] in a buffer of banks of [capacity] rows. *)
Definition slot_row (capacity e s : Z) : Z := e * capacity + s.

(** Modelled from the spec: one token of the forward-scatter kernel
    (section 4.2), [out[e*capacity+s] += g * x] when [s < capacity], the
    token skipped otherwise. A write outside the buffer is undefined for a
    kernel; the model leaves the buffer as it is. *)
Definition scatter_token (capacity : Z) (g e s : Z) (x : list Z)
    (out : list (list Z)) : list (list Z) :=
  if s <? capacity then
    match zlookup out (slot_row capacity e s) with
    | Some row => <[Z.to_nat (slot_row capacity e s) := vadd row (vscale g x)]> out
    | None => out
    end
  else out.

(** The tokens [0 .. samples-1] the kernel was specialized for; a token
    whose gate, index, location or input row is missing is skipped. *)
Definition token_args (gates indices locations : list Z) (input : list (list Z))
    (t : nat) : option (Z * Z * Z * list Z) :=
  g ← gates !! t; e ← indices !! t; s ← locations !! t; x ← input !! t;
  Some (g, e, s, x).

(** Modelled from the spec: a launch of the forward-scatter kernel, the
    tokens in order. *)
Definition launch_forward (k : kernel) (gates indices locations : list Z)
    (input : list (list Z)) (out : list (list Z)) : list (list Z) :=
  foldl (fun buf t =>
           match token_args gates indices locations input t with
           | Some (g, e, s, x) => scatter_token (k_capacity k) g e s x buf
           | None => buf
           end)
        out (seq 0 (Z.to_nat (k_samples k))).

(** Modelled from the spec: one token of the backward-data kernel
    (section 4.2, the inverse gather): the gate times the row of the
    assigned slot, a row of [width] zeros if the token is dropped. A read
    outside the source is undefined for a kernel; the model reads zeros. *)
Definition gather_token (capacity : Z) (width : nat) (g e s : Z)
    (src : list (list Z)) : list Z :=
  if s <? capacity then
    match zlookup src (slot_row capacity e s) with
    | Some row => vscale g row
    | None => vzeros width
    end
  else vzeros width.

(** Modelled from the spec: a launch of the backward-data kernel; it
    writes one row per token it was specialized for. *)
Definition launch_backward_data (k : kernel) (width : nat) (gates : list Z)
    (src : list (list Z)) (indices locations : list Z) : list (list Z) :=
  map (fun t =>
         match gates !! t, indices !! t, locations !! t with
         | Some g, Some e, Some s => gather_token (k_capacity k) width g e s src
         | _, _, _ => vzeros width
         end)
      (seq 0 (Z.to_nat (k_samples k))).

(** ** The dispatcher object *)

Definition kernel_entry : Type := kernel * kernel * kernel * list Z.

Record dispatcher : Type := mk_dispatcher {
  expected_sample_size : Z;
  num_global_experts : Z;
  capacity : Z;
  model_dim : Z;
  kernel_pool : gmap (Z * Z) kernel_entry;
  dtype_ : dtype;
  original_dtype : dtype;
  aligned_dim : Z;
  (* attributes that exist only after [update] *)
  indices_ : option (list (list Z));
  locations_ : option (list (list Z));
  gates_ : option (list (list Z));
  func_fwd : option kernel;
  func_bwd_data : option kernel;
  func_bwd_gate : option kernel;
  ones_helper : option (list Z)
}.

(** [TutelMoeFastDispatcher.__init__]; [is_hip] is the constant
    [IS_HIP_EXTENSION] of [jit_compiler]. *)
Definition __init__ (is_hip : bool) (num_global_experts capacity model_dim : Z)
    (dispatch_dtype : dtype) : dispatcher :=
  let dt := if is_hip || negb (dtype_eqb dispatch_dtype float16)
            then float32 else dispatch_dtype in
  mk_dispatcher (-1) num_global_experts capacity model_dim ∅ dt dispatch_dtype
    (model_dim `div` (if dtype_eqb dt float16 then 2 else 1))
    None None None None None None None.

Definition set_routing (self : dispatcher) (i l g : list (list Z)) : dispatcher :=
  mk_dispatcher (expected_sample_size self) (num_global_experts self) (capacity self)
    (model_dim self) (kernel_pool self) (dtype_ self) (original_dtype self)
    (aligned_dim self) (Some i) (Some l) (Some g)
    (func_fwd self) (func_bwd_data self) (func_bwd_gate self) (ones_helper self).

Definition set_shape (self : dispatcher) (sample_size cap : Z) : dispatcher :=
  mk_dispatcher sample_size (num_global_experts self) cap
    (model_dim self) (kernel_pool self) (dtype_ self) (original_dtype self)
    (aligned_dim self) (indices_ self) (locations_ self) (gates_ self)
    (func_fwd self) (func_bwd_data self) (func_bwd_gate self) (ones_helper self).

Definition set_funcs (self : dispatcher) (e : kernel_entry) : dispatcher :=
  let '(f, b, g, o) := e in
  mk_dispatcher (expected_sample_size self) (num_global_experts self) (capacity self)
    (model_dim self) (kernel_pool self) (dtype_ self) (original_dtype self)
    (aligned_dim self) (indices_ self) (locations_ self) (gates_ self)
    (Some f) (Some b) (Some g) (Some o).

Definition set_pool (self : dispatcher) (p : gmap (Z * Z) kernel_entry) : dispatcher :=
  mk_dispatcher (expected_sample_size self) (num_global_experts self) (capacity self)
    (model_dim self) p (dtype_ self) (original_dtype self)
    (aligned_dim self) (indices_ self) (locations_ self) (gates_ self)
    (func_fwd self) (func_bwd_data self) (func_bwd_gate self) (ones_helper self).

(** [capacity or self.capacity]: [None] and [0] are both falsy. *)
Definition capacity_or (arg : option Z) (own : Z) : Z :=
  match arg with
  | Some c => if c =? 0 then own else c
  | None => own
  end.

(** [TutelMoeFastDispatcher.update]. The routing attributes are assigned
    before [self.indices_[0]] is read, so they stay assigned when that read
    raises. *)
Definition update (self : dispatcher) (indices locations gates : list (list Z))
    (capacity_arg : option Z) (jit : jit_log) : outcome unit * dispatcher * jit_log :=
  let self := set_routing self (map (map to_int32) indices)
                               (map (map to_int32) locations) gates in
  match indices_ self ≫= (fun l => l !! 0%nat) with
  | None => (Raise IndexError, self, jit)
  | Some first =>
    let sample_size := Z.of_nat (length first) in
    let cap := capacity_or capacity_arg (capacity self) in
    if negb (sample_size =? expected_sample_size self) || negb (cap =? capacity self)
    then
      let self := set_shape self sample_size cap in
      match kernel_pool self !! (sample_size, cap) with
      | None =>
        let '(f, jit) := create_forward sample_size (num_global_experts self)
                           (capacity self) (aligned_dim self) (dtype_ self) jit in
        let '(b, jit) := create_backward_data sample_size (num_global_experts self)
                           (capacity self) (aligned_dim self) (dtype_ self) jit in
        let '(g, jit) := create_backward_gate sample_size (num_global_experts self)
                           (capacity self) (aligned_dim self) (dtype_ self) jit in
        let ones := replicate (Z.to_nat sample_size) 1 in
        let self := set_funcs self (f, b, g, ones) in
        let self := set_pool self (<[(sample_size, cap) := (f, b, g, ones)]> (kernel_pool self)) in
        (Ok tt, self, jit)
      | Some e => (Ok tt, set_funcs self e, jit)
      end
    else (Ok tt, self, jit)
  end.

(** The constructor call [TutelMoeFastDispatcher(...)]: no statement of
    [__init__] raises. *)
Definition construct (is_hip : bool) (num_global_experts capacity model_dim : Z)
    (dispatch_dtype : dtype) : outcome dispatcher :=
  Ok (__init__ is_hip num_global_experts capacity model_dim dispatch_dtype).

(** The helper [torch.ones([sample_size, 2])] holds the constant gate 1 of
    every token (two lanes per token for the half2 layout); the model keeps
    one entry per token. *)

(** ** [GatingEncoder] *)

(** [GatingEncoder.forward]: one launch of the forward kernel per routing
    choice, all into the same zero-initialised dispatch buffer. *)
Definition encode_step (config : dispatcher) (reshaped_input : list (list Z))
    (dispatched_input : list (list Z)) (i : nat) : outcome (list (list Z)) :=
  f ← attr (func_fwd config);
  ones ← attr (ones_helper config);
  idx ← attr (indices_ config) ≫= (fun l => item l i);
  loc ← attr (locations_ config) ≫= (fun l => item l i);
  Ok (launch_forward f ones idx loc reshaped_input dispatched_input).

Definition GatingEncoder_forward (config : dispatcher)
    (reshaped_input : list (list Z)) : outcome (list (list Z)) :=
  dispatched_input ← torch_zeros (num_global_experts config * capacity config)
                                 (model_dim config);
  idx ← attr (indices_ config);
  for_each (encode_step config reshaped_input) dispatched_input
           (seq 0 (length idx)).

(** Columns of the saved input, the row width of [torch.empty(shape)]. *)
Definition columns (m : list (list Z)) : nat :=
  match m with [] => 0%nat | r :: _ => length r end.

(** [last_result = grad_data if last_result is None else last_result + grad_data] *)
Definition accumulate (last_result : option (list (list Z))) (x : list (list Z))
    : option (list (list Z)) :=
  match last_result with
  | None => Some x
  | Some acc => Some (madd acc x)
  end.

(** The gradient of one routing choice in [GatingEncoder.backward]. *)
Definition encode_grad_term (config : dispatcher) (reshaped_input : list (list Z))
    (dispatched_input : list (list Z)) (i : nat) : outcome (list (list Z)) :=
  b ← attr (func_bwd_data config);
  ones ← attr (ones_helper config);
  idx ← attr (indices_ config) ≫= (fun l => item l i);
  loc ← attr (locations_ config) ≫= (fun l => item l i);
  Ok (launch_backward_data b (columns reshaped_input) ones dispatched_input idx loc).

(** [GatingEncoder.backward]; the first component of the returned pair is
    the constant [None] and is left out. *)
Definition GatingEncoder_backward (config : dispatcher)
    (reshaped_input : list (list Z)) (dispatched_input : list (list Z))
    : outcome (option (list (list Z))) :=
  idx ← attr (indices_ config);
  for_each (fun last_result i =>
              grad_data ← encode_grad_term config reshaped_input dispatched_input i;
              Ok (accumulate last_result grad_data))
           None (seq 0 (length idx)).

(** ** [GatingDecoder] *)

(** [torch.empty([rows, cols])] of the decoder: only the shape matters. *)
Definition torch_empty_width (rows cols : Z) : outcome nat :=
  if (rows <? 0) || (cols <? 0) then Raise RuntimeError else Ok (Z.to_nat cols).

(** The gathered output of one routing choice in [GatingDecoder.forward]. *)
Definition decode_term (config : dispatcher) (gates_h2 : list (list Z))
    (expert_output : list (list Z)) (i : nat) : outcome (list (list Z)) :=
  width ← torch_empty_width (expected_sample_size config) (model_dim config);
  b ← attr (func_bwd_data config);
  g ← item gates_h2 i;
  idx ← attr (indices_ config) ≫= (fun l => item l i);
  loc ← attr (locations_ config) ≫= (fun l => item l i);
  Ok (launch_backward_data b width g expert_output idx loc).

(** [GatingDecoder.forward]. [ctx.gates_h2] repeats every float16 gate
    into the two lanes of a half2; the model keeps one gate per token. *)
Definition GatingDecoder_forward (config : dispatcher)
    (expert_output : list (list Z)) (gates : list (list Z))
    : outcome (option (list (list Z))) :=
  idx ← attr (indices_ config);
  for_each (fun last_result i =>
              single_output ← decode_term config gates expert_output i;
              Ok (accumulate last_result single_output))
           None (seq 0 (length idx)).

(** [encode] and [decode]; the casts keep the values, and [.to] on the
    [None] of an empty loop is an AttributeError. *)
Definition encode (self : dispatcher) (data : list (list Z)) : outcome (list (list Z)) :=
  GatingEncoder_forward self data.

Definition decode (self : dispatcher) (data : list (list Z)) : outcome (list (list Z)) :=
  gates ← attr (gates_ self);
  GatingDecoder_forward self data gates ≫= attr.

(** The gradient [encode] sends back to [token_features]. *)
Definition encode_backward (self : dispatcher) (data grad : list (list Z))
    : outcome (option (list (list Z))) :=
  GatingEncoder_backward self data grad.

(** ** Dispatcher states that can arise *)

(** The states a dispatcher goes through: built by [__init__], then any
    number of [update] calls, successful or not. *)
Inductive reachable : dispatcher -> jit_log -> Prop :=
  | reachable_init is_hip e c m dt :
      reachable (__init__ is_hip e c m dt) []
  | reachable_update self jit indices locations gates capacity_arg o self' jit' :
      reachable self jit ->
      update self indices locations gates capacity_arg jit = (o, self', jit') ->
      reachable self' jit'.

(** A state installed by [update]: the last call on it was an [update]
    that returned. *)
Inductive installed : dispatcher -> Prop :=
  | installed_by_update self jit indices locations gates capacity_arg self' jit' :
      reachable self jit ->
      update self indices locations gates capacity_arg jit = (Ok tt, self', jit') ->
      installed self'.

(** ** Coherence of the kernel cache *)

(** The cache entry that [update] builds for the shape key [(s, c)]. *)
Definition entry_for (self : dispatcher) (s c : Z) : kernel_entry :=
  (mk_kernel KForward s (num_global_experts self) c (aligned_dim self) (dtype_ self),
   mk_kernel KBackwardData s (num_global_experts self) c (aligned_dim self) (dtype_ self),
   mk_kernel KBackwardGate s (num_global_experts self) c (aligned_dim self) (dtype_ self),
   replicate (Z.to_nat s) 1).

(** The kernels in use, once all four attributes are assigned. *)
Definition funcs (self : dispatcher) : option kernel_entry :=
  f ← func_fwd self; b ← func_bwd_data self; g ← func_bwd_gate self;
  o ← ones_helper self; Some (f, b, g, o).

Record coherent (self : dispatcher) (jit : jit_log) : Prop := mk_coherent {
  coh_pool : forall s c e,
    kernel_pool self !! (s, c) = Some e -> e = entry_for self s c;
  coh_current :
    expected_sample_size self = -1 \/
    (kernel_pool self !! (expected_sample_size self, capacity self)
       = Some (entry_for self (expected_sample_size self) (capacity self)) /\
     funcs self = Some (entry_for self (expected_sample_size self) (capacity self)));
  coh_builds : forall kind s c,
    build_count kind s c jit
    = if is_some (kernel_pool self !! (s, c)) then 1%nat else 0%nat
}.

(** ** Reading the installed routing assignment *)

Definition choices (self : dispatcher) : nat := length (default [] (indices_ self)).
Definition samples (self : dispatcher) : nat := Z.to_nat (expected_sample_size self).

Definition index_at (self : dispatcher) (i t : nat) : option Z :=
  l ← indices_ self; c ← l !! i; c !! t.
Definition location_at (self : dispatcher) (i t : nat) : option Z :=
  l ← locations_ self; c ← l !! i; c !! t.
Definition gate_at (self : dispatcher) (i t : nat) : option Z :=
  l ← gates_ self; c ← l !! i; c !! t.

(** Token [t] under choice [i] is placed in flat row [r]. *)
Definition placed (self : dispatcher) (i t r : nat) : bool :=
  match index_at self i t, location_at self i t with
  | Some e, Some s =>
    (s <? capacity self) && (slot_row (capacity self) e s =? Z.of_nat r)
  | _, _ => false
  end.

(** Element [(r, j)] of the dispatch buffer as a sum over every routing
    choice and every token placed in row [r]. *)
Definition scattered_cell (self : dispatcher) (x : list (list Z)) (r j : nat) : Z :=
  sumZ (map (fun i =>
          sumZ (map (fun t => if placed self i t r then cell x t j else 0)
                    (seq 0 (samples self))))
        (seq 0 (choices self))).

(** Element [j] of the row of [y] at a machine-integer row number. *)
Definition zcell (y : list (list Z)) (z : Z) (j : nat) : Z :=
  match zlookup y z with
  | Some row => default 0 (row !! j)
  | None => 0
  end.

(** What the inverse gather of choice [i] with gate [g] puts in element
    [j] of token [t]. *)
Definition gather_term (self : dispatcher) (y : list (list Z)) (t j i : nat)
    (g : option Z) : Z :=
  match g, index_at self i t, location_at self i t with
  | Some g, Some e, Some s =>
    if s <? capacity self then g * zcell y (slot_row (capacity self) e s) j else 0
  | _, _, _ => 0
  end.

(** Element [(t, j)] of the combine: the sum over every routing choice of
    the gate times the expert output row of the assigned slot. *)
Definition combined_cell (self : dispatcher) (y : list (list Z)) (t j : nat) : Z :=
  sumZ (map (fun i => gather_term self y t j i (gate_at self i t))
            (seq 0 (choices self))).

(** Element [(t, j)] of the gradient of [encode]: the same gather with the
    constant gate 1. *)
Definition encode_grad_cell (self : dispatcher) (grad : list (list Z)) (t j : nat) : Z :=
  sumZ (map (fun i => gather_term self grad t j i (Some 1))
            (seq 0 (choices self))).

(** [update] was given a location and a gate tensor for every routing
    choice, and the buffer dimensions are not negative. *)
Definition complete (self : dispatcher) : Prop :=
  (choices self <= length (default [] (locations_ self)))%nat /\
  (choices self <= length (default [] (gates_ self)))%nat.

(** [update] was given a location tensor for every routing choice: all
    that [GatingEncoder.forward] reads of the routing besides the indices. *)
Definition located (self : dispatcher) : Prop :=
  (choices self <= length (default [] (locations_ self)))%nat.

Definition dims_ok (self : dispatcher) : Prop :=
  0 <= num_global_experts self * capacity self /\ 0 <= model_dim self.

(** All rows have [w] elements. *)
Definition rows_of_width (w : nat) (m : list (list Z)) : Prop :=
  Forall (fun row => length row = w) m.

(** ** The reading of [encode] in the specification

    The specification's words for [encode]: only the first routing choice's
    indices and locations are scattered. Kept apart from
    [GatingEncoder_forward] to be compared with it. *)
Definition encode_first_choice_only (config : dispatcher)
    (reshaped_input : list (list Z)) : outcome (list (list Z)) :=
  dispatched_input ← torch_zeros (num_global_experts config * capacity config)
                                 (model_dim config);
  encode_step config reshaped_input dispatched_input 0.

End Dispatch.

(** * Differentiable collectives ([communicate.py]) *)

Module Communicate.

Local Open Scope nat_scope.

(** ** Tensors

    A contiguous tensor: its shape and its elements in row-major order. *)
Record tensor : Type := mk_tensor {
  shape : list nat;
  data : list Z
}.

Definition numel_of (sh : list nat) : nat := foldr Nat.mul 1 sh.
Definition numel (t : tensor) : nat := numel_of (shape t).

Definition well_formed (t : tensor) : Prop := length (data t) = numel t.

(** A view into a buffer: where it starts and its shape. The pieces that
    [torch.chunk] returns along dimension 0 of a contiguous tensor are
    contiguous views, and [x.contiguous()] on such a view is the view
    itself: what a collective writes into it lands in the chunked tensor. *)
Record view : Type := mk_view {
  v_offset : nat;
  v_shape : list nat
}.

Definition read_view (buf : list Z) (v : view) : tensor :=
  mk_tensor (v_shape v) (take (numel_of (v_shape v)) (drop (v_offset v) buf)).

Definition write_view (buf : list Z) (v : view) (src : list Z) : list Z :=
  take (v_offset v) buf ++ src ++ drop (v_offset v + length src) buf.

(** [torch.split(split_size, dim=0)] on [n] rows: first row and row count
    of every piece. *)
Definition split_bounds (n split_size : nat) : list (nat * nat) :=
  let num_splits := Nat.max ((n + split_size - 1) / split_size) 1 in
  let last_split_size := split_size - (split_size * num_splits - n) in
  map (fun i => (i * split_size,
                 if i <? num_splits - 1 then split_size else last_split_size))
      (seq 0 num_splits).

(** [torch.chunk(chunks, dim=0)] on [n] rows: pieces of [ceil(n / chunks)]
    rows, which can be fewer than [chunks] pieces; an empty dimension
    gives [chunks] empty pieces. *)
Definition chunk_bounds (n chunks : nat) : list (nat * nat) :=
  let split_size := (n + chunks - 1) / chunks in
  if (split_size =? 0) && (n =? 0) then replicate chunks (0, 0)
  else split_bounds n split_size.

Definition torch_chunk (sh : list nat) (chunks : nat) : outcome (list view) :=
  match sh with
  | [] => Raise RuntimeError
  | n :: rest =>
    if chunks =? 0 then Raise RuntimeError
    else Ok (map (fun b => mk_view (fst b * numel_of rest) (snd b :: rest))
                 (chunk_bounds n chunks))
  end.

(** [t.view(rows, -1)] *)
Definition view_rows (t : tensor) (rows : nat) : outcome tensor :=
  if (0 <? rows) && (numel t mod rows =? 0)
  then Ok (mk_tensor [rows; numel t / rows] (data t))
  else Raise RuntimeError.

(** [torch.empty(shape)]: the content is unspecified; the model fills it
    with zeros. *)
Definition torch_empty (sh : list nat) : tensor :=
  mk_tensor sh (replicate (numel_of sh) 0%Z).

(** ** Process groups and the collectives of [torch.distributed]

    Every member of a group runs the same operator in the same order. A
    call is described from one member's side: [grp] gives the group and
    the member's rank, and a family [xs] gives the tensor that member [j]
    passes to the call, the member's own being [xs (rank grp)]. *)
Record group : Type := mk_group {
  initialised : bool;
  size : nat;
  rank : nat
}.

(** [get_world_size] and [get_world_rank]: the [except] branch answers for
    a process without a process group. *)
Definition get_world_size (grp : group) : nat :=
  if initialised grp then size grp else 1.

Definition get_world_rank (grp : group) : nat :=
  if initialised grp then rank grp else 0.

(** What a process does that others can observe. *)
Inductive event : Type :=
  | ExternalAll2AllSetup (phase : Z)
  | Broadcast
  | AllToAllSingle
  | ExternalAll2All
  | AllGather
  | ReduceScatter
  | CudaSynchronize
  | LogInfo.

(** The process-wide state: the class attributes of [AllToAll] and the
    trace of events so far, oldest first. *)
Record process : Type := mk_process {
  prepared : bool;
  a2a_type : Z;
  trace : list event
}.

Definition emit (e : event) (p : process) : process :=
  mk_process (prepared p) (a2a_type p) (trace p ++ [e]).

Definition emit_if (b : bool) (e : event) (p : process) : process :=
  if b then emit e p else p.

(** Piece [r] of [count] equal pieces of a tensor's elements. *)
Definition block (count r : nat) (t : tensor) : list Z :=
  take (numel t / count) (drop (r * (numel t / count)) (data t)).

Definition same_shapes (p : nat) (xs : nat -> tensor) (sh : list nat) : bool :=
  forallb (fun j => bool_decide (shape (xs j) = sh)) (seq 0 p).

(** [dist.all_to_all_single(output, input)] without split sizes: the
    leading dimension is cut into [size grp] equal pieces; piece [j] of the
    output is piece [rank grp] of member [j]'s input. A leading dimension
    that does not divide is refused; members that disagree on the shape do
    not complete the exchange. *)
Definition all_to_all_single (grp : group) (xs : nat -> tensor) : outcome tensor :=
  let input := xs (rank grp) in
  match shape input with
  | [] => Raise RuntimeError
  | n :: _ =>
    if negb (n mod size grp =? 0) then Raise RuntimeError
    else if negb (same_shapes (size grp) xs (shape input)) then Raise CommError
    else Ok (mk_tensor (shape input)
               (concat (map (fun j => block (size grp) (rank grp) (xs j))
                            (seq 0 (size grp)))))
  end.

(** Modelled from the spec: [tutel_custom_kernel.external_all2all(input, -1)]
    is compiled code outside the embedded files; the spec describes it as
    an alternate backend of the same exchange. *)
Definition external_all2all (grp : group) (xs : nat -> tensor) : outcome tensor :=
  all_to_all_single grp xs.

(** [dist.all_gather(tensor_list, tensor)]: entry [j] of the list receives
    member [j]'s tensor. The entries are views of [buf]. *)
Definition all_gather (grp : group) (xs : nat -> tensor) (tensor_list : list view)
    (buf : list Z) : outcome (list Z) :=
  let m := numel (xs (rank grp)) in
  if negb (length tensor_list =? size grp) then Raise RuntimeError
  else if negb (forallb (fun v => numel_of (v_shape v) =? m) tensor_list)
  then Raise RuntimeError
  else if negb (forallb (fun j => numel (xs j) =? m) (seq 0 (size grp)))
  then Raise CommError
  else Ok (foldl (fun b jv => write_view b (snd jv) (data (xs (fst jv))))
                 buf (zip (seq 0 (size grp)) tensor_list)).

Definition vsum (m : nat) (parts : list (list Z)) : list Z :=
  foldl vadd (vzeros m) parts.

(** The piece a member contributes for rank [r], when its list fits. *)
Definition contribution (p r m : nat) (l : outcome (list tensor)) : option (list Z) :=
  match l with
  | Ok ts =>
    if (length ts =? p) && forallb (fun t => numel t =? m) ts
    then data <$> ts !! r else None
  | Raise _ => None
  end.

(** [dist.reduce_scatter(output, input_list)]: the output of rank [r] is
    the element-wise sum over the members of entry [r] of their lists.
    [lists j] is the list member [j] arrives with, or how it failed before
    the call; a member that never arrives, or with a list that does not
    fit, leaves the call incomplete. *)
Definition reduce_scatter (grp : group) (lists : nat -> outcome (list tensor))
    (out_shape : list nat) : outcome tensor :=
  let m := numel_of out_shape in
  match contribution (size grp) (rank grp) m (lists (rank grp)) with
  | None => Raise RuntimeError
  | Some _ =>
    match mapM (fun w => contribution (size grp) (rank grp) m (lists w))
               (seq 0 (size grp)) with
    | Some parts => Ok (mk_tensor out_shape (vsum m parts))
    | None => Raise CommError
    end
  end.

(** ** [AllToAll] *)

Record a2a_ctx : Type := mk_a2a_ctx {
  a2a_group : group;
  a2a_world_size : nat
}.

(** The first-call block of [AllToAll.forward]; [has_all_to_all_single] is
    [hasattr(dist, 'all_to_all_single')]. *)
Definition prepare (has_all_to_all_single : bool) (grp : group) (p : process)
    : process :=
  if prepared p then p
  else
    let p := mk_process true (a2a_type p) (trace p) in
    let p := if negb has_all_to_all_single && (Z.land (a2a_type p) 1 =? 1)%Z
             then mk_process (prepared p) (Z.lxor (a2a_type p) 3) (trace p)
             else p in
    if (Z.land (a2a_type p) 2 =? 2)%Z && (1 <? get_world_size grp) then
      let p := emit_if (get_world_rank grp =? 0) (ExternalAll2AllSetup 0) p in
      let p := emit Broadcast p in
      emit (ExternalAll2AllSetup 1) p
    else p.

(** [AllToAll.forward]: the result, the saved context and the process
    state after the call. *)
Definition AllToAll_forward (has_all_to_all_single : bool) (grp : group)
    (xs : nat -> tensor) (p : process) : outcome tensor * a2a_ctx * process :=
  let input := xs (rank grp) in
  let p := prepare has_all_to_all_single grp p in
  let ctx := mk_a2a_ctx grp (get_world_size grp) in
  if (a2a_world_size ctx <=? 1) || (a2a_type p =? 0)%Z then (Ok input, ctx, p)
  else
    let timed := (Z.land (a2a_type p) 8 =? 8)%Z in
    let p := emit_if timed CudaSynchronize p in
    let '(output, p) :=
      if (Z.land (a2a_type p) 1 =? 1)%Z
      then (all_to_all_single grp xs, emit AllToAllSingle p)
      else (external_all2all grp xs, emit ExternalAll2All p) in
    match output with
    | Raise e => (Raise e, ctx, p)
    | Ok output =>
      let p := emit_if timed CudaSynchronize p in
      let p := emit_if (timed && (get_world_rank grp =? 0)) LogInfo p in
      (Ok output, ctx, p)
    end.

(** [AllToAll.backward]: [(None, AllToAll.apply(ctx.group, grad_output))];
    the constant [None] is left out. *)
Definition AllToAll_backward (has_all_to_all_single : bool) (ctx : a2a_ctx)
    (grads : nat -> tensor) (p : process) : outcome tensor * process :=
  let '(o, _, p) := AllToAll_forward has_all_to_all_single (a2a_group ctx) grads p in
  (o, p).

(** ** [PreAllreduceSum] (Expand) and [PostAllreduceSum] (Contract) *)

Record sum_ctx : Type := mk_sum_ctx {
  ctx_group : group;
  ctx_num_nodes : nat;
  ctx_input_shape : option (list nat);
  ctx_leading_dim : option nat
}.

(** [PreAllreduceSum.forward] *)
Definition PreAllreduceSum_forward (grp : group) (xs : nat -> tensor) (p : process)
    : outcome tensor * sum_ctx * process :=
  let input := xs (rank grp) in
  let num_nodes := get_world_size grp in
  if num_nodes <=? 1 then (Ok input, mk_sum_ctx grp num_nodes None None, p)
  else
    let ctx := mk_sum_ctx grp num_nodes (Some (shape input)) None in
    let output := torch_empty [num_nodes; numel input] in
    match torch_chunk (shape output) num_nodes with
    | Raise e => (Raise e, ctx, p)
    | Ok tensor_list =>
      let p := emit AllGather p in
      match all_gather grp xs tensor_list (data output) with
      | Raise e => (Raise e, ctx, p)
      | Ok buf =>
        match shape input with
        | [] => (Raise IndexError, ctx, p)
        | n :: rest => (Ok (mk_tensor (n * num_nodes :: rest) buf), ctx, p)
        end
      end
    end.

(** The list member [j] arrives with at the reduce-scatter of
    [PreAllreduceSum.backward]. *)
Definition pre_backward_chunks (num_nodes : nat) (doutput : tensor)
    : outcome (list tensor) :=
  v ← view_rows doutput num_nodes;
  views ← torch_chunk (shape v) num_nodes;
  Ok (map (read_view (data v)) views).

(** [PreAllreduceSum.backward] *)
Definition PreAllreduceSum_backward (ctx : sum_ctx) (grads : nat -> tensor)
    (p : process) : outcome tensor * process :=
  let doutput := grads (rank (ctx_group ctx)) in
  if get_world_size (ctx_group ctx) <=? 1 then (Ok doutput, p)
  else
    match ctx_input_shape ctx with
    | None => (Raise AttributeError, p)
    | Some input_shape =>
      match pre_backward_chunks (ctx_num_nodes ctx) doutput with
      | Raise e => (Raise e, p)
      | Ok _ =>
        (reduce_scatter (ctx_group ctx)
           (fun j => pre_backward_chunks (ctx_num_nodes ctx) (grads j)) input_shape,
         emit ReduceScatter p)
      end
    end.

(** The list member [j] arrives with at the reduce-scatter of
    [PostAllreduceSum.forward]: the chunks, if their count passes the
    assertion. *)
Definition post_forward_chunks (num_nodes : nat) (input : tensor)
    : outcome (list tensor) :=
  views ← torch_chunk (shape input) num_nodes;
  if length views =? num_nodes then Ok (map (read_view (data input)) views)
  else Raise AssertionError.

(** [PostAllreduceSum.forward] *)
Definition PostAllreduceSum_forward (grp : group) (xs : nat -> tensor) (p : process)
    : outcome tensor * sum_ctx * process :=
  let input := xs (rank grp) in
  let num_nodes := get_world_size grp in
  if num_nodes <=? 1 then (Ok input, mk_sum_ctx grp num_nodes None None, p)
  else
    let ctx := mk_sum_ctx grp num_nodes (Some (shape input)) (Some 0) in
    match post_forward_chunks num_nodes input with
    | Raise e => (Raise e, ctx, p)
    | Ok chunks =>
      match chunks !! 0 with
      | None => (Raise IndexError, ctx, p)
      | Some first =>
        (reduce_scatter grp (fun j => post_forward_chunks num_nodes (xs j))
                        (shape first),
         ctx, emit ReduceScatter p)
      end
    end.

(** [PostAllreduceSum.backward]. The only value the forward assigns to
    [ctx.leading_dim] is 0, the dimension [torch_chunk] cuts. *)
Definition PostAllreduceSum_backward (ctx : sum_ctx) (grads : nat -> tensor)
    (p : process) : outcome tensor * process :=
  let doutput := grads (rank (ctx_group ctx)) in
  if ctx_num_nodes ctx <=? 1 then (Ok doutput, p)
  else
    match ctx_input_shape ctx with
    | None => (Raise AttributeError, p)
    | Some input_shape =>
      let dinput := torch_empty input_shape in
      match ctx_leading_dim ctx with
      | None => (Raise AttributeError, p)
      | Some _ =>
        match torch_chunk (shape dinput) (ctx_num_nodes ctx) with
        | Raise e => (Raise e, p)
        | Ok tensor_list =>
          let p := emit AllGather p in
          match all_gather (ctx_group ctx) grads tensor_list (data dinput) with
          | Raise e => (Raise e, p)
          | Ok buf => (Ok (mk_tensor input_shape buf), p)
          end
        end
      end
    end.

(** ** Closed forms used in the statements *)

(** The elements of all members' tensors, in rank order. *)
Definition gathered (p : nat) (xs : nat -> tensor) : list Z :=
  concat (map (fun j => data (xs j)) (seq 0 p)).

(** The element-wise sum over the members of piece [r] of their tensors. *)
Definition reduced_shard (p r : nat) (xs : nat -> tensor) : list Z :=
  vsum (numel (xs r) / p) (map (fun w => block p r (xs w)) (seq 0 p)).

(** What rank [r] holds after the exchange: piece [r] of every member's
    elements, in rank order. *)
Definition exchanged (p r : nat) (xs : nat -> tensor) : list Z :=
  concat (map (fun j => block p r (xs j)) (seq 0 p)).

(** Inner product of two tensors' elements, and its sum over a group. *)
Definition dot (u v : list Z) : Z := sumZ (zip_with Z.mul u v).

Definition group_dot (p : nat) (f g : nat -> list Z) : Z :=
  sumZ (map (fun r => dot (f r) (g r)) (seq 0 p)).

End Communicate.

(** * Concrete states used by the examples *)

Module Examples.
Import Dispatch.

Local Open Scope Z_scope.

(** Two experts of capacity 1, one token routed to both (top-2). *)
Definition top2 : dispatcher :=
  (update (__init__ false 2 1 1 float32) [[0]; [1]] [[0]; [0]] [[1]; [1]] None []).1.2.

Definition top2_jit : jit_log :=
  (update (__init__ false 2 1 1 float32) [[0]; [1]] [[0]; [0]] [[1]; [1]] None []).2.

(** One expert of capacity 1, two tokens: the second one overflows. *)
Definition overflow : dispatcher :=
  (update (__init__ false 1 1 2 float32) [[0; 0]] [[0; 1]] [[3; 4]] None []).1.2.

(** A group of one, a group of two seen from rank [r], a fresh process. *)
Definition alone : Communicate.group := Communicate.mk_group true 1 0.
Definition pair (r : nat) : Communicate.group := Communicate.mk_group true 2 r.
Definition fresh : Communicate.process := Communicate.mk_process false 1 [].

(** Member [j] holds two rows of one element: [10j+1] and [10j+2]. *)
Definition ramp (j : nat) : Communicate.tensor :=
  Communicate.mk_tensor [2%nat; 1%nat] [Z.of_nat (10 * j + 1); Z.of_nat (10 * j + 2)].

(** Every member holds four rows of one element. *)
Definition ramp4 (j : nat) : Communicate.tensor :=
  Communicate.mk_tensor [4%nat; 1%nat]
    [Z.of_nat (10 * j + 1); Z.of_nat (10 * j + 2);
     Z.of_nat (10 * j + 3); Z.of_nat (10 * j + 4)].

(** Every member holds an empty tensor of three columns. *)
Definition empty3 (j : nat) : Communicate.tensor :=
  Communicate.mk_tensor [0%nat; 3%nat] [].

(** Every member holds one row of three columns. *)
Definition row3 (j : nat) : Communicate.tensor :=
  Communicate.mk_tensor [1%nat; 3%nat] [1; 2; 3].

End Examples.

(** * Proof steps used repeatedly *)

(** Case analysis on the first integer comparison [a <? b] of the goal. *)
Ltac decide_ltb :=
  match goal with
  | |- context [(?a <? ?b)%Z] => destruct (Z.ltb_spec a b)
  end.

(** * Sequences of calls and further operators *)

Module Runs.
Import Dispatch.

Local Open Scope Z_scope.

(** The arguments of one [update] call. *)
Record update_call : Type := mk_call {
  call_indices : list (list Z);
  call_locations : list (list Z);
  call_gates : list (list Z);
  call_capacity : option Z
}.

(** A caller that makes the [update] calls in order and carries on after
    a call that raised. *)
Fixpoint run_updates (self : dispatcher) (jit : jit_log) (calls : list update_call)
    : dispatcher * jit_log :=
  match calls with
  | [] => (self, jit)
  | c :: calls' =>
    let '(_, self', jit') :=
      update self (call_indices c) (call_locations c) (call_gates c)
             (call_capacity c) jit in
    run_updates self' jit' calls'
  end.

(** Three shapes in a row on a fresh dispatcher: one token, two tokens,
    one token again. *)
Definition one_token : update_call := mk_call [[0]] [[0]] [[1]] None.
Definition two_tokens : update_call := mk_call [[0; 1]] [[0; 0]] [[1; 1]] None.

Definition after_one_shape : dispatcher * jit_log :=
  run_updates (__init__ false 2 1 1 float32) [] [one_token].

Definition after_two_shapes : dispatcher * jit_log :=
  run_updates (__init__ false 2 1 1 float32) [] [one_token; two_tokens].

(** The cache entry of one token at capacity 1 on that dispatcher. *)
Definition one_token_entry : kernel_entry :=
  (mk_kernel KForward 1 2 1 1 float32, mk_kernel KBackwardData 1 2 1 1 float32,
   mk_kernel KBackwardGate 1 2 1 1 float32, [1]).

(** Top-1 routing of two tokens to the two experts, gates 3 and 4. *)
Definition top1 : dispatcher :=
  (update (__init__ false 2 1 2 float32) [[1; 0]] [[0; 0]] [[3; 4]] None []).1.2.

(** Two index tensors but one location tensor and one gate tensor. *)
Definition lopsided : dispatcher :=
  (update (__init__ false 2 1 1 float32) [[0]; [1]] [[0]] [[1]] None []).1.2.

End Runs.

Module CommRuns.
Import Communicate.

(** The tensor a call returned, for feeding it to the next call. *)
Definition value (o : outcome tensor) : tensor :=
  match o with
  | Ok t => t
  | Raise _ => mk_tensor [] []
  end.

(** The events a call added to the trace. *)
Definition new_events (before after : process) : list event :=
  drop (length (trace before)) (trace after).

(** The events of the one-time negotiation of the external backend. *)
Definition is_negotiation (e : event) : bool :=
  match e with
  | ExternalAll2AllSetup _ | Broadcast => true
  | _ => false
  end.

(** The events of the timing instrumentation. *)
Definition is_timing (e : event) : bool :=
  match e with
  | CudaSynchronize | LogInfo => true
  | _ => false
  end.

Definition without_timing (l : list event) : list event :=
  filter (fun e => is_timing e = false) l.

(** The same process with the timing bit of [a2a_type] set. *)
Definition with_timing (p : process) : process :=
  mk_process (prepared p) (Z.lor (a2a_type p) 8) (trace p).

(** Every member holds a 0-d tensor (a scalar). *)
Definition scalars (j : nat) : tensor := mk_tensor [] [Z.of_nat j].

(** Every member holds three elements, which do not split in two. *)
Definition triple (j : nat) : tensor := mk_tensor [3%nat] [1; 2; 3]%Z.

End CommRuns.

(** A property of every event of an explicit list, by evaluation. *)
Ltac each_event :=
  repeat first
    [ apply List.Forall_nil
    | apply List.Forall_cons; [first [reflexivity | discriminate]|] ].

(** * Sums of integers *)

Module SumFacts.

Local Open Scope Z_scope.

Lemma sumZ_cons a l : sumZ (a :: l) = a + sumZ l.
Proof. reflexivity. Qed.

Lemma sumZ_app l1 l2 : sumZ (l1 ++ l2) = sumZ l1 + sumZ l2.
Proof.
  induction l1 as [|a l1 IH]; [reflexivity|].
  rewrite <- app_comm_cons, !sumZ_cons, IH. lia.
Qed.

Lemma sumZ_seq_S (f : nat -> Z) n :
  sumZ (map f (seq 0 (S n))) = sumZ (map f (seq 0 n)) + f n.
Proof. rewrite seq_S, map_app, sumZ_app. cbn. lia. Qed.

Lemma sumZ_map_ext (f g : nat -> Z) l :
  (forall i, i ∈ l -> f i = g i) -> sumZ (map f l) = sumZ (map g l).
Proof.
  induction l as [|a l IH]; intros H; [reflexivity|].
  cbn [map]. rewrite !sumZ_cons, (H a), IH; [reflexivity| |]; intros;
    try apply H; set_solver.
Qed.

Lemma sumZ_map_zero (f : nat -> Z) l :
  (forall i, i ∈ l -> f i = 0) -> sumZ (map f l) = 0.
Proof.
  induction l as [|a l IH]; intros H; [reflexivity|].
  cbn [map]. rewrite sumZ_cons, (H a), IH; [reflexivity| |]; intros;
    try apply H; set_solver.
Qed.

Lemma sumZ_map_add (f g : nat -> Z) l :
  sumZ (map (fun i => f i + g i) l) = sumZ (map f l) + sumZ (map g l).
Proof.
  induction l as [|a l IH]; [reflexivity|].
  cbn [map]. rewrite !sumZ_cons, IH. lia.
Qed.

(** Exchange of two finite sums. *)
Lemma sumZ_swap (F : nat -> nat -> Z) l1 l2 :
  sumZ (map (fun r => sumZ (map (fun j => F r j) l2)) l1)
  = sumZ (map (fun j => sumZ (map (fun r => F r j) l1)) l2).
Proof.
  induction l1 as [|a l1 IH].
  - cbn [map]. symmetry. apply sumZ_map_zero. reflexivity.
  - cbn [map]. rewrite sumZ_cons, IH.
    rewrite <- sumZ_map_add. apply sumZ_map_ext. intros j _.
    rewrite sumZ_cons. reflexivity.
Qed.

End SumFacts.

(** * Properties of the dispatcher *)

Module DispatchFacts.
Import Dispatch SumFacts.

Local Open Scope Z_scope.

(** ** [update] keeps the construction-time configuration *)

Lemma update_config self indices locations gates capacity_arg jit o self' jit' :
  update self indices locations gates capacity_arg jit = (o, self', jit') ->
  num_global_experts self' = num_global_experts self /\
  model_dim self' = model_dim self /\
  dtype_ self' = dtype_ self /\
  original_dtype self' = original_dtype self /\
  aligned_dim self' = aligned_dim self.
Proof.
  unfold update; cbn.
  destruct (map (map to_int32) indices !! 0%nat) as [first|]; cbn.
  - destruct (_ || _).
    + destruct (kernel_pool self !! _) as [[[[f b] g] o']|]; cbn;
        intros [= <- <- <-]; cbn; auto.
    + intros [= <- <- <-]; cbn; auto.
  - intros [= <- <- <-]; cbn; auto.
Qed.

Lemma entry_for_config self self' s c :
  num_global_experts self' = num_global_experts self ->
  dtype_ self' = dtype_ self ->
  aligned_dim self' = aligned_dim self ->
  entry_for self' s c = entry_for self s c.
Proof. unfold entry_for. intros -> -> ->. reflexivity. Qed.

(** ** Counting builds *)

Lemma build_count_app kind s c jit1 jit2 :
  build_count kind s c (jit1 ++ jit2)
  = (build_count kind s c jit1 + build_count kind s c jit2)%nat.
Proof. unfold build_count. rewrite list.filter_app, length_app. reflexivity. Qed.

Lemma build_count_entry kind s c s' c' e a dt :
  build_count kind s c
    [mk_kernel KForward s' e c' a dt; mk_kernel KBackwardData s' e c' a dt;
     mk_kernel KBackwardGate s' e c' a dt]
  = if decide ((s', c') = (s, c)) then 1%nat else 0%nat.
Proof.
  unfold build_count.
  rewrite !list.filter_cons, list.filter_nil. unfold is_build. cbn.
  destruct (decide ((s', c') = (s, c))) as [[= -> ->]|Hne].
  - rewrite !Z.eqb_refl. destruct kind; reflexivity.
  - destruct (Z.eqb_spec s' s) as [->|]; destruct (Z.eqb_spec c' c) as [->|];
      try congruence; destruct kind; reflexivity.
Qed.

(** ** The invariant of the kernel cache *)

Lemma coherent_init is_hip e c m dt : coherent (__init__ is_hip e c m dt) [].
Proof.
  split; cbn.
  - intros s c' e'. rewrite lookup_empty. discriminate.
  - left. reflexivity.
  - intros kind s c'. rewrite lookup_empty. reflexivity.
Qed.

Lemma coherent_update self jit indices locations gates capacity_arg o self' jit' :
  coherent self jit ->
  update self indices locations gates capacity_arg jit = (o, self', jit') ->
  coherent self' jit'.
Proof.
  intros [Hpool Hcur Hb]. unfold update; cbn.
  destruct (map (map to_int32) indices !! 0%nat) as [first|]; cbn.
  2:{ intros [= <- <- <-]. split; cbn; auto. }
  set (s := Z.of_nat (length first)).
  set (c := capacity_or capacity_arg (capacity self)).
  destruct (negb (s =? expected_sample_size self) || negb (c =? capacity self)) eqn:Hchg.
  2:{ intros [= <- <- <-]. split; cbn; auto. }
  destruct (kernel_pool self !! (s, c)) as [e|] eqn:Hlk; cbn.
  - pose proof (Hpool _ _ _ Hlk) as ->.
    intros [= <- <- <-]. split; cbn; auto.
  - intros [= <- <- <-]. split; cbn.
    + intros s' c' e'. rewrite lookup_insert.
      destruct (decide ((s, c) = (s', c'))) as [[= <- <-]|Hne].
      * intros [= <-]. reflexivity.
      * apply Hpool.
    + right. rewrite lookup_insert_eq. split; reflexivity.
    + intros kind s' c'.
      rewrite <- !app_assoc. cbn [app].
      rewrite build_count_app, build_count_entry, Hb, lookup_insert.
      destruct (decide ((s, c) = (s', c'))) as [[= <- <-]|Hne].
      * rewrite Hlk. reflexivity.
      * destruct (kernel_pool self !! (s', c')); reflexivity.
Qed.

Lemma reachable_coherent self jit : reachable self jit -> coherent self jit.
Proof.
  induction 1 as [| ? ? ? ? ? ? ? ? ? _ IH Hupd].
  - apply coherent_init.
  - eapply coherent_update; eauto.
Qed.

(** What [update] leaves behind when it returns. *)
Lemma update_returns self jit indices locations gates capacity_arg self' jit' :
  coherent self jit ->
  update self indices locations gates capacity_arg jit = (Ok tt, self', jit') ->
  exists first,
    map (map to_int32) indices !! 0%nat = Some first /\
    indices_ self' = Some (map (map to_int32) indices) /\
    locations_ self' = Some (map (map to_int32) locations) /\
    gates_ self' = Some gates /\
    expected_sample_size self' = Z.of_nat (length first) /\
    capacity self' = capacity_or capacity_arg (capacity self) /\
    funcs self' = Some (entry_for self' (expected_sample_size self') (capacity self')).
Proof.
  intros [Hpool Hcur Hb]. unfold update; cbn.
  destruct (map (map to_int32) indices !! 0%nat) as [first|]; cbn; [|discriminate].
  intros H. exists first. split; [reflexivity|]. revert H.
  set (s := Z.of_nat (length first)).
  set (c := capacity_or capacity_arg (capacity self)).
  destruct (negb (s =? expected_sample_size self) || negb (c =? capacity self)) eqn:Hchg.
  - destruct (kernel_pool self !! (s, c)) as [e|] eqn:Hlk; cbn.
    + pose proof (Hpool _ _ _ Hlk) as ->.
      intros [= <- <-]. cbn. repeat split; reflexivity.
    + intros [= <- <-]. cbn. repeat split; reflexivity.
  - apply orb_false_elim in Hchg as [Hs Hc].
    apply negb_false_iff, Z.eqb_eq in Hs, Hc.
    intros [= <- <-]. cbn. repeat split; try reflexivity; try congruence.
    destruct Hcur as [Hminus|[_ Hf]]; [lia|].
    unfold funcs in *; cbn. rewrite Hf, <- Hs, <- Hc. reflexivity.
Qed.

(** The facts about an installed state that the kernels' callers rely on. *)
Lemma installed_state self :
  installed self ->
  exists idx loc g first,
    indices_ self = Some idx /\ locations_ self = Some loc /\ gates_ self = Some g /\
    idx !! 0%nat = Some first /\
    expected_sample_size self = Z.of_nat (length first) /\
    funcs self = Some (entry_for self (expected_sample_size self) (capacity self)).
Proof.
  intros [d jit indices locations gates capacity_arg d' jit' Hreach Hupd].
  apply reachable_coherent in Hreach.
  destruct (update_returns _ _ _ _ _ _ _ _ Hreach Hupd)
    as (first & H0 & Hi & Hl & Hg & Hs & _ & Hf).
  eauto 10.
Qed.

Lemma funcs_fields self e :
  funcs self = Some e ->
  func_fwd self = Some e.1.1.1 /\ func_bwd_data self = Some e.1.1.2 /\
  func_bwd_gate self = Some e.1.2 /\ ones_helper self = Some e.2.
Proof.
  unfold funcs.
  destruct (func_fwd self), (func_bwd_data self), (func_bwd_gate self),
    (ones_helper self); cbn; try discriminate.
  intros [= <-]. auto.
Qed.

(** ** Configuration errors *)

(** C6, as stated, fails: a construction with an unrecognized precision,
    a negative capacity and no expert returns a dispatcher, and so does an
    [update] of it that asks for a negative capacity. *)
Lemma configuration_errors_counterexample :
  ~ (forall is_hip e c m dt,
       dt = unrecognized_dtype \/ c <= 0 \/ e <= 0 ->
       is_ok (construct is_hip e c m dt) = false) /\
  is_ok (update (__init__ false 0 (-1) 8 unrecognized_dtype)
           [[0]] [[0]] [[1]] (Some (-3)) []).1.1 = true.
Proof.
  split; [|reflexivity].
  intros H. specialize (H false 0 (-1) 8 unrecognized_dtype (or_introl eq_refl)).
  discriminate H.
Qed.

(** C6, amended: neither the constructor nor [update] checks the precision
    request, the capacity or the expert count. Construction always returns
    a dispatcher that stores the capacity and the expert count as given,
    keeps the request as [original_dtype] and works in float32 unless the
    request is float16 on a build without HIP. An [update] with at least
    one routing choice always returns; it installs [capacity or
    self.capacity], whatever its sign, and keeps the expert count. *)
Theorem configuration_is_not_validated :
  (forall is_hip e c m dt,
     exists d, construct is_hip e c m dt = Ok d /\
       num_global_experts d = e /\ capacity d = c /\ original_dtype d = dt /\
       dtype_ d = (if is_hip || negb (dtype_eqb dt float16) then float32 else float16)) /\
  (forall self indices locations gates capacity_arg jit,
     indices <> [] ->
     exists self' jit',
       update self indices locations gates capacity_arg jit = (Ok tt, self', jit') /\
       capacity self' = capacity_or capacity_arg (capacity self) /\
       num_global_experts self' = num_global_experts self).
Proof.
  split.
  - intros is_hip e c m dt. eexists. split; [reflexivity|]. cbn.
    repeat split. destruct is_hip, dt; reflexivity.
  - intros self indices locations gates capacity_arg jit Hne.
    destruct indices as [|first rest]; [congruence|].
    unfold update; cbn.
    destruct (_ || _) eqn:Hchg.
    + destruct (kernel_pool self !! _) as [[[[f b] g] o']|]; cbn;
        eexists _, _; (split; [reflexivity|]); cbn; auto.
    + apply orb_false_elim in Hchg as [_ Hc].
      apply negb_false_iff, Z.eqb_eq in Hc.
      eexists _, _; (split; [reflexivity|]); cbn; split; auto.
Qed.

Lemma configuration_is_not_validated_witness :
  [[0]] <> ([] : list (list Z)) /\
  exists self' jit',
    update (__init__ false 0 (-1) 8 unrecognized_dtype) [[0]] [[0]] [[1]] (Some (-3)) []
      = (Ok tt, self', jit') /\
    capacity self' = capacity_or (Some (-3)) (capacity (__init__ false 0 (-1) 8 unrecognized_dtype)) /\
    num_global_experts self' = num_global_experts (__init__ false 0 (-1) 8 unrecognized_dtype).
Proof.
  split; [discriminate|].
  apply (proj2 configuration_is_not_validated); discriminate.
Defined.

(** ** Reuse of the kernel cache *)

Lemma update_same_shape self indices locations gates capacity_arg jit first :
  map (map to_int32) indices !! 0%nat = Some first ->
  Z.of_nat (length first) = expected_sample_size self ->
  capacity_or capacity_arg (capacity self) = capacity self ->
  update self indices locations gates capacity_arg jit
  = (Ok tt, set_routing self (map (map to_int32) indices)
                        (map (map to_int32) locations) gates, jit).
Proof.
  intros H0 Hs Hc. unfold update; cbn. rewrite H0; cbn.
  rewrite Hs, Hc, !Z.eqb_refl. reflexivity.
Qed.

(** C9: on every dispatcher (any state reached from its construction by
    [update] calls), two [update] calls in succession with the same
    [(sample_size, capacity)] leave each of the three kernels of that key
    built exactly once: the second call returns without asking the JIT for anything,
    leaves the cache as the first call left it, with an entry for the key,
    and keeps the kernels in use. *)
Theorem update_twice_builds_once
    self jit idx1 loc1 g1 c1 idx2 loc2 g2 c2 self1 jit1 o2 self2 jit2 first1 first2 :
  reachable self jit ->
  update self idx1 loc1 g1 c1 jit = (Ok tt, self1, jit1) ->
  update self1 idx2 loc2 g2 c2 jit1 = (o2, self2, jit2) ->
  idx1 !! 0%nat = Some first1 ->
  idx2 !! 0%nat = Some first2 ->
  length first1 = length first2 ->
  capacity_or c2 (capacity self1) = capacity_or c1 (capacity self) ->
  o2 = Ok tt /\
  jit2 = jit1 /\
  kernel_pool self2 = kernel_pool self1 /\
  funcs self2 = funcs self1 /\
  is_Some (kernel_pool self2 !! (Z.of_nat (length first1), capacity self1)) /\
  (forall kind,
     build_count kind (Z.of_nat (length first1)) (capacity self1) jit2 = 1%nat).
Proof.
  intros Hreach Hu1 Hu2 H1 H2 Hlen Hcap.
  apply reachable_coherent in Hreach as Hcoh.
  pose proof (coherent_update _ _ _ _ _ _ _ _ _ Hcoh Hu1) as Hcoh1.
  destruct (update_returns _ _ _ _ _ _ _ _ Hcoh Hu1)
    as (f1 & Hf1 & _ & _ & _ & Hs1 & Hc1 & Hfun1).
  rewrite list_lookup_fmap, H1 in Hf1. injection Hf1 as <-.
  rewrite length_map in Hs1.
  assert (Hf2 : map (map to_int32) idx2 !! 0%nat = Some (map to_int32 first2))
    by (rewrite list_lookup_fmap, H2; reflexivity).
  rewrite (update_same_shape _ _ _ _ _ _ _ Hf2) in Hu2.
  2:{ rewrite length_map. congruence. }
  2:{ congruence. }
  injection Hu2 as <- <- <-. cbn.
  destruct Hcoh1 as [_ Hcur Hb].
  destruct Hcur as [Hminus|[Hlk _]]; [lia|].
  rewrite Hs1 in Hlk.
  split; [reflexivity|]. split; [reflexivity|]. split; [reflexivity|].
  split; [reflexivity|]. split.
  - rewrite Hlk. eauto.
  - intros kind. rewrite Hb, Hlk. reflexivity.
Qed.

Lemma update_twice_builds_once_witness :
  build_count KForward 1 1
    (update Examples.top2 [[1]; [0]] [[0]; [0]] [[2]; [3]] (Some 1)
            Examples.top2_jit).2 = 1%nat.
Proof.
  exact (proj2 (proj2 (proj2 (proj2 (proj2
    (update_twice_builds_once
       (__init__ false 2 1 1 float32) []
       [[0]; [1]] [[0]; [0]] [[1]; [1]] None
       [[1]; [0]] [[0]; [0]] [[2]; [3]] (Some 1)
       Examples.top2 Examples.top2_jit (Ok tt)
       (update Examples.top2 [[1]; [0]] [[0]; [0]] [[2]; [3]] (Some 1)
               Examples.top2_jit).1.2
       (update Examples.top2 [[1]; [0]] [[0]; [0]] [[2]; [3]] (Some 1)
               Examples.top2_jit).2
       [0] [1]
       (reachable_init false 2 1 1 float32)
       eq_refl eq_refl eq_refl eq_refl eq_refl eq_refl))))) KForward).
Defined.

(** ** Elements of vectors and matrices *)

Lemma lookup_vadd u v j :
  length u = length v ->
  default 0 (vadd u v !! j) = default 0 (u !! j) + default 0 (v !! j).
Proof.
  intros Hlen. unfold vadd. rewrite lookup_zip_with.
  destruct (u !! j) as [a|] eqn:Hu; cbn.
  - destruct (v !! j) as [b|] eqn:Hv; cbn; [reflexivity|].
    apply lookup_lt_Some in Hu. apply lookup_ge_None in Hv. lia.
  - apply lookup_ge_None in Hu.
    rewrite (proj2 (lookup_ge_None v j)) by lia. reflexivity.
Qed.

Lemma lookup_vscale g v j : default 0 (vscale g v !! j) = g * default 0 (v !! j).
Proof.
  unfold vscale. rewrite list_lookup_fmap.
  destruct (v !! j); cbn; lia.
Qed.

Lemma lookup_vzeros w j : default 0 (vzeros w !! j) = 0.
Proof.
  unfold vzeros. destruct (replicate w 0 !! j) as [a|] eqn:H; [|reflexivity].
  apply lookup_replicate in H as [-> _]. reflexivity.
Qed.

Lemma length_vadd u v : length u = length v -> length (vadd u v) = length u.
Proof. intros H. unfold vadd. rewrite length_zip_with. lia. Qed.

Lemma length_vscale g v : length (vscale g v) = length v.
Proof. unfold vscale. apply length_map. Qed.

Lemma cell_madd w a b t j :
  length a = length b -> rows_of_width w a -> rows_of_width w b ->
  cell (madd a b) t j = cell a t j + cell b t j.
Proof.
  intros Hlen Ha Hb. unfold cell, madd. rewrite lookup_zip_with.
  destruct (a !! t) as [ra|] eqn:Hat; cbn.
  - destruct (b !! t) as [rb|] eqn:Hbt; cbn.
    + apply lookup_vadd.
      rewrite (proj1 (Forall_lookup _ _) Ha _ _ Hat).
      rewrite (proj1 (Forall_lookup _ _) Hb _ _ Hbt). reflexivity.
    + apply lookup_lt_Some in Hat. apply lookup_ge_None in Hbt. lia.
  - apply lookup_ge_None in Hat.
    rewrite (proj2 (lookup_ge_None b t)) by lia. reflexivity.
Qed.

Lemma rows_of_width_madd w a b :
  rows_of_width w a -> rows_of_width w b -> rows_of_width w (madd a b).
Proof.
  unfold rows_of_width, madd. intros Ha. revert b.
  induction Ha as [|ra a Hra Ha IH]; intros b Hb; [constructor|].
  destruct Hb as [|rb b Hrb Hb]; cbn; constructor; auto.
  rewrite length_vadd; congruence.
Qed.

Lemma length_madd a b : length a = length b -> length (madd a b) = length a.
Proof. intros H. unfold madd. rewrite length_zip_with. lia. Qed.

Lemma cell_zeros rows cols r j : cell (replicate rows (vzeros cols)) r j = 0.
Proof.
  unfold cell. destruct (replicate rows (vzeros cols) !! r) as [row|] eqn:H; [|reflexivity].
  apply lookup_replicate in H as [-> _]. apply lookup_vzeros.
Qed.

(** ** The forward scatter *)

Lemma scatter_token_shape cap g e s x buf w :
  rows_of_width w buf -> length x = w ->
  length (scatter_token cap g e s x buf) = length buf /\
  rows_of_width w (scatter_token cap g e s x buf).
Proof.
  intros Hbuf Hx. unfold scatter_token.
  destruct (s <? cap); [|auto].
  destruct (zlookup buf (slot_row cap e s)) as [row|] eqn:Hrow; [|auto].
  split; [apply length_insert|].
  unfold zlookup in Hrow. destruct (_ <? 0); [discriminate|].
  apply Forall_insert; [assumption|].
  rewrite length_vadd; rewrite ?length_vscale;
    rewrite (proj1 (Forall_lookup _ _) Hbuf _ _ Hrow); congruence.
Qed.

Lemma cell_scatter_token cap g e s x buf w r j :
  rows_of_width w buf -> length x = w -> (r < length buf)%nat ->
  cell (scatter_token cap g e s x buf) r j
  = cell buf r j +
    (if (s <? cap) && (slot_row cap e s =? Z.of_nat r)
     then g * default 0 (x !! j) else 0).
Proof.
  intros Hbuf Hx Hr. unfold scatter_token.
  destruct (s <? cap); cbn; [|lia].
  unfold zlookup.
  destruct (Z.ltb_spec (slot_row cap e s) 0) as [Hneg|Hpos].
  { destruct (Z.eqb_spec (slot_row cap e s) (Z.of_nat r)); lia. }
  destruct (buf !! Z.to_nat (slot_row cap e s)) as [row|] eqn:Hrow.
  - destruct (Z.eqb_spec (slot_row cap e s) (Z.of_nat r)) as [Heq|Hne].
    + rewrite Heq, Nat2Z.id in *. unfold cell.
      rewrite list_lookup_insert_eq by assumption. rewrite Hrow.
      rewrite lookup_vadd, lookup_vscale; [reflexivity|].
      rewrite length_vscale.
      rewrite (proj1 (Forall_lookup _ _) Hbuf _ _ Hrow). congruence.
    + unfold cell. rewrite list_lookup_insert_ne by lia. lia.
  - apply lookup_ge_None in Hrow.
    destruct (Z.eqb_spec (slot_row cap e s) (Z.of_nat r)); lia.
Qed.

(** The contribution of token [t] to element [(r, j)] in one launch. *)
Lemma launch_forward_cells k gates indices locations x buf w :
  rows_of_width w buf -> rows_of_width w x ->
  length (launch_forward k gates indices locations x buf) = length buf /\
  rows_of_width w (launch_forward k gates indices locations x buf) /\
  forall r j, (r < length buf)%nat ->
    cell (launch_forward k gates indices locations x buf) r j
    = cell buf r j +
      sumZ (map (fun t =>
                   match token_args gates indices locations x t with
                   | Some (g, e, s, xt) =>
                     if (s <? k_capacity k) && (slot_row (k_capacity k) e s =? Z.of_nat r)
                     then g * default 0 (xt !! j) else 0
                   | None => 0
                   end)
                (seq 0 (Z.to_nat (k_samples k)))).
Proof.
  intros Hbuf Hx. unfold launch_forward.
  induction (Z.to_nat (k_samples k)) as [|n IH].
  - cbn. repeat split; auto. intros; lia.
  - rewrite seq_S, foldl_snoc. cbn [plus].
    destruct IH as (IHlen & IHw & IHcell).
    destruct (token_args gates indices locations x n) as [[[[g e] s] xt]|] eqn:Hargs.
    + assert (Hxt : length xt = w).
      { unfold token_args in Hargs.
        destruct (gates !! n), (indices !! n), (locations !! n); cbn in Hargs;
          try discriminate.
        destruct (x !! n) as [xn|] eqn:Hxn; cbn in Hargs; [|discriminate].
        injection Hargs as <- <- <- <-.
        exact (proj1 (Forall_lookup _ _) Hx _ _ Hxn). }
      destruct (scatter_token_shape (k_capacity k) g e s xt _ w IHw Hxt) as [Hl Hw'].
      split; [congruence|]. split; [assumption|].
      intros r j Hr.
      rewrite (cell_scatter_token _ _ _ _ _ _ w) by (auto; lia).
      rewrite IHcell by assumption.
      rewrite map_app, sumZ_app. cbn. rewrite Hargs. lia.
    + split; [assumption|]. split; [assumption|].
      intros r j Hr. rewrite IHcell by assumption.
      rewrite map_app, sumZ_app. cbn. rewrite Hargs. lia.
Qed.

(** ** Loops *)

Lemma for_each_seq {S} (f : S -> nat -> outcome S) (I : nat -> S -> Prop) a n s :
  I a s ->
  (forall i s, (a <= i < a + n)%nat -> I i s -> exists s', f s i = Ok s' /\ I (Datatypes.S i) s') ->
  exists s', for_each f s (seq a n) = Ok s' /\ I (a + n)%nat s'.
Proof.
  revert a s. induction n as [|n IH]; intros a s Ha Hstep; cbn.
  - exists s. rewrite Nat.add_0_r. auto.
  - destruct (Hstep a s) as (s1 & Hf & H1); [lia|assumption|].
    rewrite Hf. cbn.
    destruct (IH (Datatypes.S a) s1) as (s' & Hs' & HI); [assumption| |].
    + intros i s2 Hi. apply Hstep. lia.
    + exists s'. split; [assumption|].
      replace (a + Datatypes.S n)%nat with (Datatypes.S a + n)%nat by lia. assumption.
Qed.

(** ** [encode] element by element *)

Lemma installed_choice self i :
  installed self -> complete self -> (i < choices self)%nat ->
  exists idx loc g ii li gi,
    indices_ self = Some idx /\ locations_ self = Some loc /\ gates_ self = Some g /\
    idx !! i = Some ii /\ loc !! i = Some li /\ g !! i = Some gi.
Proof.
  intros Hinst [Hloc Hg] Hi.
  destruct (installed_state _ Hinst) as (idx & loc & g & first & Hi' & Hl' & Hg' & _).
  unfold choices in *. rewrite Hi' in *. rewrite Hl' in Hloc. rewrite Hg' in Hg. cbn in *.
  destruct (lookup_lt_is_Some_2 idx i) as [ii Hii]; [lia|].
  destruct (lookup_lt_is_Some_2 loc i) as [li Hli]; [lia|].
  destruct (lookup_lt_is_Some_2 g i) as [gi Hgi]; [lia|].
  eauto 15.
Qed.

Lemma installed_location self i :
  installed self -> located self -> (i < choices self)%nat ->
  exists idx loc ii li,
    indices_ self = Some idx /\ locations_ self = Some loc /\
    idx !! i = Some ii /\ loc !! i = Some li.
Proof.
  intros Hinst Hloc Hi.
  destruct (installed_state _ Hinst) as (idx & loc & g & first & Hi' & Hl' & _).
  unfold located, choices in *. rewrite Hi' in *. rewrite Hl' in Hloc. cbn in *.
  destruct (lookup_lt_is_Some_2 idx i) as [ii Hii]; [lia|].
  destruct (lookup_lt_is_Some_2 loc i) as [li Hli]; [lia|].
  eauto 10.
Qed.

Lemma installed_kernels self :
  installed self ->
  0 <= expected_sample_size self /\
  func_fwd self = Some (mk_kernel KForward (expected_sample_size self)
                          (num_global_experts self) (capacity self)
                          (aligned_dim self) (dtype_ self)) /\
  func_bwd_data self = Some (mk_kernel KBackwardData (expected_sample_size self)
                               (num_global_experts self) (capacity self)
                               (aligned_dim self) (dtype_ self)) /\
  ones_helper self = Some (replicate (samples self) 1) /\
  (0 < choices self)%nat.
Proof.
  intros Hinst.
  destruct (installed_state _ Hinst) as (idx & loc & g & first & Hi & _ & _ & H0 & Hs & Hf).
  apply funcs_fields in Hf as (Hfw & Hbd & _ & Hon). cbn in *.
  split; [lia|]. repeat split; auto.
  unfold choices. rewrite Hi. cbn. apply lookup_lt_Some in H0. lia.
Qed.

Lemma encode_step_ok self x buf i f ones idx loc ii li :
  func_fwd self = Some f -> ones_helper self = Some ones ->
  indices_ self = Some idx -> locations_ self = Some loc ->
  idx !! i = Some ii -> loc !! i = Some li ->
  encode_step self x buf i = Ok (launch_forward f ones ii li x buf).
Proof.
  intros Hf Ho Hi Hl Hii Hli. unfold encode_step, item.
  rewrite Hf, Ho, Hi, Hl. cbn. rewrite Hii, Hli. reflexivity.
Qed.

(** [encode] reads no gate: a location tensor per choice is enough. *)
Lemma encode_cells_located self x :
  installed self -> located self -> dims_ok self ->
  rows_of_width (Z.to_nat (model_dim self)) x ->
  exists buf,
    encode self x = Ok buf /\
    length buf = Z.to_nat (num_global_experts self * capacity self) /\
    forall r j, (r < length buf)%nat -> cell buf r j = scattered_cell self x r j.
Proof.
  intros Hinst Hcomp [Hrows Hcols] Hx.
  destruct (installed_kernels _ Hinst) as (Hs & Hfw & _ & Hon & HK).
  unfold encode, GatingEncoder_forward, torch_zeros.
  destruct (Z.ltb_spec (num_global_experts self * capacity self) 0); [lia|].
  destruct (Z.ltb_spec (model_dim self) 0); [lia|]. cbn.
  destruct (installed_state _ Hinst) as (idx & loc & g & first & Hi & Hl & _).
  rewrite Hi. cbn.
  set (R := Z.to_nat (num_global_experts self * capacity self)).
  set (w := Z.to_nat (model_dim self)) in *.
  destruct (for_each_seq (encode_step self x)
    (fun i buf => length buf = R /\ rows_of_width w buf /\
       forall r j, (r < R)%nat ->
         cell buf r j =
         sumZ (map (fun i' =>
                 sumZ (map (fun t => if placed self i' t r then cell x t j else 0)
                           (seq 0 (samples self))))
               (seq 0 i)))
    0%nat (length idx) (replicate R (vzeros w))) as (buf & Hbuf & Hlen & _ & Hcell).
  - split; [apply length_replicate|]. split.
    + apply Forall_replicate. apply length_replicate.
    + intros r j _. apply cell_zeros.
  - intros i buf Hi' (Hlen & Hw & Hcell).
    destruct (installed_location self i Hinst Hcomp) as
      (idx' & loc' & ii & li & Hi2 & Hl2 & Hii & Hli).
    { unfold choices. rewrite Hi. cbn. lia. }
    rewrite (encode_step_ok _ _ _ _ _ _ _ _ _ _ Hfw Hon Hi2 Hl2 Hii Hli).
    eexists. split; [reflexivity|].
    edestruct (launch_forward_cells) as (Hl' & Hw' & Hc'); [exact Hw|exact Hx|].
    split; [rewrite Hl'; exact Hlen|]. split; [exact Hw'|].
    intros r j Hr. rewrite Hc' by lia. rewrite Hcell by assumption.
    rewrite sumZ_seq_S. f_equal. cbn [k_samples k_capacity].
    apply sumZ_map_ext. intros t Ht.
    apply elem_of_seq in Ht. unfold samples in *.
    unfold token_args, placed, index_at, location_at.
    rewrite Hi2, Hl2. cbn. rewrite Hii, Hli. cbn.
    rewrite lookup_replicate_2 by lia. cbn.
    destruct (ii !! t); cbn; [|reflexivity].
    destruct (li !! t); cbn; [|reflexivity].
    unfold cell. destruct (x !! t); cbn.
    + destruct (_ && _); lia.
    + destruct (_ && _); reflexivity.
  - exists buf. split; [exact Hbuf|]. split; [exact Hlen|].
    intros r j Hr. rewrite Hcell by lia.
    unfold scattered_cell, choices. rewrite Hi. reflexivity.
Qed.

Lemma encode_cells self x :
  installed self -> complete self -> dims_ok self ->
  rows_of_width (Z.to_nat (model_dim self)) x ->
  exists buf,
    encode self x = Ok buf /\
    length buf = Z.to_nat (num_global_experts self * capacity self) /\
    forall r j, (r < length buf)%nat -> cell buf r j = scattered_cell self x r j.
Proof.
  intros Hinst [Hloc _] Hdims Hx. apply encode_cells_located; assumption.
Qed.

(** ** The inverse gather *)

Lemma gather_token_cell cap w g e s src j :
  default 0 (gather_token cap w g e s src !! j)
  = if s <? cap then g * zcell src (slot_row cap e s) j else 0.
Proof.
  unfold gather_token, zcell.
  destruct (s <? cap); [|apply lookup_vzeros].
  destruct (zlookup src (slot_row cap e s)).
  - apply lookup_vscale.
  - rewrite lookup_vzeros. lia.
Qed.

Lemma gather_token_length cap w g e s src :
  rows_of_width w src -> length (gather_token cap w g e s src) = w.
Proof.
  intros Hsrc. unfold gather_token, vzeros.
  destruct (s <? cap); [|apply length_replicate].
  destruct (zlookup src (slot_row cap e s)) as [row|] eqn:Hrow; [|apply length_replicate].
  unfold zlookup in Hrow. destruct (_ <? 0); [discriminate|].
  rewrite length_vscale. exact (proj1 (Forall_lookup _ _) Hsrc _ _ Hrow).
Qed.

Lemma launch_backward_data_shape k w gates src indices locations :
  rows_of_width w src ->
  length (launch_backward_data k w gates src indices locations)
    = Z.to_nat (k_samples k) /\
  rows_of_width w (launch_backward_data k w gates src indices locations).
Proof.
  intros Hsrc. unfold launch_backward_data. split.
  - rewrite length_map, length_seq. reflexivity.
  - apply Forall_fmap, Forall_forall. intros t _. cbn.
    destruct (gates !! t), (indices !! t), (locations !! t);
      try apply length_replicate.
    apply gather_token_length, Hsrc.
Qed.

Lemma launch_backward_data_cell k w gates src indices locations t j :
  (t < Z.to_nat (k_samples k))%nat ->
  cell (launch_backward_data k w gates src indices locations) t j
  = match gates !! t, indices !! t, locations !! t with
    | Some g, Some e, Some s =>
      if s <? k_capacity k then g * zcell src (slot_row (k_capacity k) e s) j else 0
    | _, _, _ => 0
    end.
Proof.
  intros Ht. unfold cell, launch_backward_data.
  rewrite list_lookup_fmap, lookup_seq_lt by assumption. cbn.
  destruct (gates !! t), (indices !! t), (locations !! t);
    try apply lookup_vzeros.
  apply gather_token_cell.
Qed.

(** ** Summing the routing choices *)

Lemma accumulate_loop (F : nat -> outcome (list (list Z))) (M : nat -> list (list Z))
    n rows w :
  (0 < n)%nat ->
  (forall i, (i < n)%nat ->
     F i = Ok (M i) /\ length (M i) = rows /\ rows_of_width w (M i)) ->
  exists total,
    for_each (fun last_result i => m ← F i; Ok (accumulate last_result m))
             None (seq 0 n) = Ok (Some total) /\
    length total = rows /\
    forall t j, cell total t j = sumZ (map (fun i => cell (M i) t j) (seq 0 n)).
Proof.
  intros Hn HF.
  destruct (for_each_seq
    (fun last_result i => m ← F i; Ok (accumulate last_result m))
    (fun i acc =>
       match acc with
       | None => i = 0%nat
       | Some m => length m = rows /\ rows_of_width w m /\
                   forall t j, cell m t j = sumZ (map (fun i' => cell (M i') t j) (seq 0 i))
       end)
    0%nat n None) as (acc & Hacc & HI).
  - reflexivity.
  - intros i acc Hi HI.
    destruct (HF i) as (HFi & Hlen & Hw); [lia|].
    rewrite HFi. eexists. split; [reflexivity|].
    destruct acc as [m|]; unfold accumulate.
    + destruct HI as (Hlm & Hwm & Hcm).
      split; [rewrite length_madd; congruence|].
      split; [apply rows_of_width_madd; assumption|].
      intros t j. rewrite (cell_madd w) by (auto; congruence).
      rewrite Hcm, sumZ_seq_S. reflexivity.
    + subst i. split; [assumption|]. split; [assumption|].
      intros t j. rewrite sumZ_seq_S. reflexivity.
  - destruct acc as [total|]; [|cbn in HI; lia].
    exists total. destruct HI as (Hl & _ & Hc). auto.
Qed.

(** ** [decode] and the gradient of [encode], element by element *)

Lemma decode_cells self y :
  installed self -> complete self -> 0 <= model_dim self ->
  rows_of_width (Z.to_nat (model_dim self)) y ->
  exists out,
    decode self y = Ok out /\
    length out = samples self /\
    forall t j, (t < samples self)%nat -> cell out t j = combined_cell self y t j.
Proof.
  intros Hinst Hcomp Hdim Hy.
  destruct (installed_kernels _ Hinst) as (Hs & _ & Hbd & _ & HK).
  destruct (installed_state _ Hinst) as (idx & loc & g & first & Hi & Hl & Hg & _).
  unfold decode, GatingDecoder_forward. rewrite Hg, Hi. cbn [attr mbind outcome_bind].
  set (b := mk_kernel KBackwardData (expected_sample_size self)
              (num_global_experts self) (capacity self) (aligned_dim self) (dtype_ self)).
  destruct (accumulate_loop (decode_term self g y)
    (fun i => launch_backward_data b (Z.to_nat (model_dim self))
                (default [] (g !! i)) y (default [] (idx !! i)) (default [] (loc !! i)))
    (length idx) (samples self) (Z.to_nat (model_dim self)))
    as (total & Htot & Hlen & Hcell).
  - unfold choices in HK. rewrite Hi in HK. exact HK.
  - intros i Hi'.
    destruct (installed_choice self i Hinst Hcomp) as
      (idx' & loc' & g' & ii & li & gi & Hi2 & Hl2 & Hg2 & Hii & Hli & Hgi).
    { unfold choices. rewrite Hi. exact Hi'. }
    rewrite Hi in Hi2. rewrite Hl in Hl2. rewrite Hg in Hg2.
    injection Hi2 as <-. injection Hl2 as <-. injection Hg2 as <-.
    destruct (launch_backward_data_shape b (Z.to_nat (model_dim self)) gi y ii li Hy)
      as [Hlen Hw].
    rewrite Hgi, Hii, Hli. cbn [default]. split; [|split; assumption].
    unfold decode_term, torch_empty_width, item.
    destruct (Z.ltb_spec (expected_sample_size self) 0); [lia|].
    destruct (Z.ltb_spec (model_dim self) 0); [lia|].
    cbn [orb mbind outcome_bind]. rewrite Hbd, Hgi, Hi, Hl. cbn [attr mbind outcome_bind].
    rewrite Hii, Hli. reflexivity.
  - rewrite Htot. cbn [attr mbind outcome_bind].
    exists total. split; [reflexivity|]. split; [exact Hlen|].
    intros t j Ht. rewrite Hcell. unfold combined_cell, choices. rewrite Hi. cbn [default].
    apply sumZ_map_ext. intros i _.
    rewrite launch_backward_data_cell by exact Ht.
    unfold gather_term, gate_at, index_at, location_at. rewrite Hg, Hi, Hl. cbn.
    destruct (g !! i) as [gi|]; cbn; [|reflexivity].
    destruct (idx !! i) as [ii|]; cbn.
    2:{ destruct (gi !! t); reflexivity. }
    destruct (loc !! i) as [li|]; cbn.
    2:{ destruct (gi !! t); [destruct (ii !! t)|]; reflexivity. }
    reflexivity.
Qed.

Lemma encode_backward_cells self x grad :
  installed self -> complete self ->
  rows_of_width (columns x) grad ->
  exists total,
    encode_backward self x grad = Ok (Some total) /\
    length total = samples self /\
    forall t j, (t < samples self)%nat -> cell total t j = encode_grad_cell self grad t j.
Proof.
  intros Hinst Hcomp Hgrad.
  destruct (installed_kernels _ Hinst) as (Hs & _ & Hbd & Hon & HK).
  destruct (installed_state _ Hinst) as (idx & loc & g & first & Hi & Hl & Hg & _).
  unfold encode_backward, GatingEncoder_backward. rewrite Hi. cbn [attr mbind outcome_bind].
  set (b := mk_kernel KBackwardData (expected_sample_size self)
              (num_global_experts self) (capacity self) (aligned_dim self) (dtype_ self)).
  destruct (accumulate_loop (encode_grad_term self x grad)
    (fun i => launch_backward_data b (columns x) (replicate (samples self) 1) grad
                (default [] (idx !! i)) (default [] (loc !! i)))
    (length idx) (samples self) (columns x))
    as (total & Htot & Hlen & Hcell).
  - unfold choices in HK. rewrite Hi in HK. exact HK.
  - intros i Hi'.
    destruct (installed_choice self i Hinst Hcomp) as
      (idx' & loc' & g' & ii & li & gi & Hi2 & Hl2 & Hg2 & Hii & Hli & Hgi).
    { unfold choices. rewrite Hi. exact Hi'. }
    rewrite Hi in Hi2. rewrite Hl in Hl2.
    injection Hi2 as <-. injection Hl2 as <-.
    destruct (launch_backward_data_shape b (columns x) (replicate (samples self) 1)
                grad ii li Hgrad) as [Hlen Hw].
    rewrite Hii, Hli. cbn [default]. split; [|split; assumption].
    unfold encode_grad_term, item.
    rewrite Hbd, Hon, Hi, Hl. cbn [attr mbind outcome_bind].
    rewrite Hii, Hli. reflexivity.
  - rewrite Htot. exists total. split; [reflexivity|]. split; [exact Hlen|].
    intros t j Ht. rewrite Hcell. unfold encode_grad_cell, choices. rewrite Hi. cbn [default].
    apply sumZ_map_ext. intros i _.
    rewrite launch_backward_data_cell by exact Ht.
    unfold gather_term, index_at, location_at. rewrite Hi, Hl. cbn.
    rewrite lookup_replicate_2 by exact Ht.
    destruct (idx !! i) as [ii|]; cbn; [|reflexivity].
    destruct (loc !! i) as [li|]; cbn.
    2:{ destruct (ii !! t); reflexivity. }
    reflexivity.
Qed.

(** ** The example states are installed states *)

Lemma top2_installed : installed Examples.top2.
Proof.
  exact (installed_by_update (__init__ false 2 1 1 float32) []
           [[0]; [1]] [[0]; [0]] [[1]; [1]] None Examples.top2 Examples.top2_jit
           (reachable_init false 2 1 1 float32) eq_refl).
Qed.

Lemma overflow_installed : installed Examples.overflow.
Proof.
  exact (installed_by_update (__init__ false 1 1 2 float32) []
           [[0; 0]] [[0; 1]] [[3; 4]] None Examples.overflow
           (update (__init__ false 1 1 2 float32) [[0; 0]] [[0; 1]] [[3; 4]] None []).2
           (reachable_init false 1 1 2 float32) eq_refl).
Qed.

(** ** What [encode] scatters *)

(** C1, as stated, fails: with two routing choices the token reaches the
    slots of both, where the first choice alone fills one. *)
Lemma encode_first_choice_counterexample :
  ~ (forall self x, installed self -> encode self x = encode_first_choice_only self x).
Proof.
  intros H. specialize (H Examples.top2 [[5]] top2_installed).
  vm_compute in H. discriminate H.
Qed.

Lemma encode_single_choice self x :
  choices self = 1%nat -> encode self x = encode_first_choice_only self x.
Proof.
  unfold choices, encode, GatingEncoder_forward, encode_first_choice_only.
  intros HK. destruct (torch_zeros _ _) as [buf|e]; [|reflexivity].
  cbn [mbind outcome_bind].
  destruct (indices_ self) as [idx|] eqn:Hi; [|discriminate HK].
  cbn in HK. cbn [attr mbind outcome_bind]. rewrite HK. cbn.
  destruct (encode_step self x buf 0); reflexivity.
Qed.

(** C1, amended: [encode] scatters [token_features] with the indices and
    locations of every routing choice, all into the same dispatch buffer.
    On a state installed by [update] with a location tensor per choice
    (the gates are not read), buffer dimensions that are not negative and
    input rows of [model_dim] elements, it returns a buffer of
    [num_global_experts * capacity] rows whose element [(r, j)] is the sum
    of [token_features[t][j]] over every choice [i] and every token [t]
    with [locations[i][t] < capacity] and
    [indices[i][t] * capacity + locations[i][t] = r]. With one routing
    choice this is the scatter of the first choice alone. *)
Theorem encode_scatters_every_choice self x :
  installed self -> located self -> dims_ok self ->
  rows_of_width (Z.to_nat (model_dim self)) x ->
  (exists buf,
     encode self x = Ok buf /\
     length buf = Z.to_nat (num_global_experts self * capacity self) /\
     forall r j, (r < length buf)%nat -> cell buf r j = scattered_cell self x r j) /\
  (choices self = 1%nat -> encode self x = encode_first_choice_only self x).
Proof.
  intros Hinst Hloc Hdims Hx. split.
  - apply encode_cells_located; assumption.
  - apply encode_single_choice.
Qed.

Lemma encode_scatters_every_choice_witness :
  exists buf,
    encode Examples.top2 [[5]] = Ok buf /\
    length buf = Z.to_nat (num_global_experts Examples.top2 * capacity Examples.top2) /\
    forall r j, (r < length buf)%nat -> cell buf r j = scattered_cell Examples.top2 [[5]] r j.
Proof.
  refine (proj1 (encode_scatters_every_choice Examples.top2 [[5]] top2_installed _ _ _)).
  - vm_compute; lia.
  - split; vm_compute; discriminate.
  - repeat constructor.
Defined.

(** ** Capacity overflow *)

Lemma foldl_ext_in {A B} (f g : A -> B -> A) (l : list B) (a : A) :
  (forall a b, b ∈ l -> f a b = g a b) -> foldl f a l = foldl g a l.
Proof.
  revert a. induction l as [|b l IH]; intros a H; cbn; [reflexivity|].
  rewrite (H a b) by set_solver. apply IH. intros; apply H; set_solver.
Qed.

Lemma launch_forward_dropped k gates indices locations x buf t s x' :
  locations !! t = Some s -> k_capacity k <= s ->
  launch_forward k gates indices locations (<[t := x']> x) buf
  = launch_forward k gates indices locations x buf.
Proof.
  intros Hs Hcap. unfold launch_forward. apply foldl_ext_in.
  intros b t' _. unfold token_args.
  destruct (decide (t' = t)) as [->|Hne].
  - rewrite Hs.
    destruct (gates !! t) as [g|]; cbn; [|reflexivity].
    destruct (indices !! t) as [e|]; cbn; [|reflexivity].
    assert (Hdrop : forall row, scatter_token (k_capacity k) g e s row b = b).
    { intros row. unfold scatter_token.
      decide_ltb; [lia|reflexivity]. }
    destruct (<[t := x']> x !! t), (x !! t); cbn; rewrite ?Hdrop; reflexivity.
  - rewrite list_lookup_insert_ne by congruence. reflexivity.
Qed.

(** C2: a token [t] whose location under choice [i] is at or beyond the
    capacity raises no error in [encode] and [decode]; nothing of it
    reaches the dispatch buffer under that choice (the launch of choice
    [i] gives the same buffer whatever the token's features, and its
    summand in every buffer element is zero); and the gradient that
    [encode]'s backward computes for it under that choice is a row of
    zeros, which adds zero to the returned gradient. *)
Theorem capacity_overflow_is_dropped self x y grad i t s :
  installed self -> complete self -> dims_ok self ->
  rows_of_width (Z.to_nat (model_dim self)) x ->
  rows_of_width (Z.to_nat (model_dim self)) y ->
  rows_of_width (columns x) grad ->
  (i < choices self)%nat -> (t < samples self)%nat ->
  location_at self i t = Some s -> capacity self <= s ->
  (exists buf, encode self x = Ok buf /\
     forall r j, (r < length buf)%nat -> cell buf r j = scattered_cell self x r j) /\
  (exists out, decode self y = Ok out) /\
  (forall buf x', encode_step self (<[t := x']> x) buf i = encode_step self x buf i) /\
  (forall r, placed self i t r = false) /\
  (exists m, encode_grad_term self x grad i = Ok m /\
     m !! t = Some (vzeros (columns x))) /\
  (exists total, encode_backward self x grad = Ok (Some total) /\
     forall j, cell total t j = encode_grad_cell self grad t j) /\
  (forall j, gather_term self grad t j i (Some 1) = 0).
Proof.
  intros Hinst Hcomp Hdims Hx Hy Hgrad Hi Ht Hloc Hcap.
  destruct (installed_kernels _ Hinst) as (Hs & Hfw & Hbd & Hon & HK).
  destruct (installed_choice self i Hinst Hcomp Hi) as
    (idx & loc & g & ii & li & gi & Hidx & Hl & Hg & Hii & Hli & Hgi).
  assert (Hlit : li !! t = Some s).
  { unfold location_at in Hloc. rewrite Hl in Hloc. cbn in Hloc.
    rewrite Hli in Hloc. exact Hloc. }
  split; [|split; [|split; [|split; [|split; [|split]]]]].
  - destruct (encode_cells self x Hinst Hcomp Hdims Hx) as (buf & Hb & _ & Hc). eauto.
  - destruct (decode_cells self y Hinst Hcomp (proj2 Hdims) Hy) as (out & Ho & _). eauto.
  - intros buf x'.
    rewrite !(encode_step_ok _ _ _ _ _ _ _ _ _ _ Hfw Hon Hidx Hl Hii Hli).
    f_equal. eapply launch_forward_dropped; [exact Hlit|exact Hcap].
  - intros r. unfold placed. rewrite Hloc.
    destruct (index_at self i t); [|reflexivity].
    decide_ltb; [lia|reflexivity].
  - unfold encode_grad_term, item.
    rewrite Hbd, Hon, Hidx, Hl. cbn [attr mbind outcome_bind].
    rewrite Hii, Hli. cbn [mbind outcome_bind]. eexists. split; [reflexivity|].
    unfold launch_backward_data. rewrite list_lookup_fmap. cbn [k_samples].
    unfold samples in Ht. rewrite lookup_seq_lt by exact Ht. cbn.
    rewrite lookup_replicate_2 by exact Ht. rewrite Hlit.
    destruct (ii !! t); [|reflexivity].
    unfold gather_token. decide_ltb; [lia|reflexivity].
  - destruct (encode_backward_cells self x grad Hinst Hcomp Hgrad)
      as (total & Htot & _ & Hc). eauto.
  - intros j. unfold gather_term. rewrite Hloc.
    destruct (index_at self i t); [|reflexivity].
    decide_ltb; [lia|reflexivity].
Qed.

Lemma capacity_overflow_is_dropped_witness :
  (location_at Examples.overflow 0 1 = Some 1 /\ capacity Examples.overflow <= 1) /\
  (exists m, encode_grad_term Examples.overflow [[1; 2]; [3; 4]] [[7; 8]] 0 = Ok m /\
     m !! 1%nat = Some (vzeros (columns [[1; 2]; [3; 4]]))).
Proof.
  split; [split; [reflexivity|vm_compute; discriminate]|].
  refine (proj1 (proj2 (proj2 (proj2 (proj2
    (capacity_overflow_is_dropped Examples.overflow [[1; 2]; [3; 4]] [[5; 6]] [[7; 8]]
       0%nat 1%nat 1 overflow_installed _ _ _ _ _ _ _ _ _)))))).
  - split; vm_compute; lia.
  - split; vm_compute; discriminate.
  - repeat constructor.
  - repeat constructor.
  - repeat constructor.
  - vm_compute; lia.
  - vm_compute; lia.
  - reflexivity.
  - vm_compute; discriminate.
Defined.

(** ** What [decode] combines *)

(** C3: on a state installed by [update] with K routing choices (a
    location and a gate tensor for each) and expert output rows of
    [model_dim] elements, [decode] returns one row per token; element [j]
    of token [t] is the sum over all K choices of the choice's term, which
    is [gates[i][t]] times element [j] of the expert output row
    [indices[i][t] * capacity + locations[i][t]] when the location is
    below the capacity, and zero when the token was dropped. *)
Theorem decode_combines_all_choices self y :
  installed self -> complete self -> 0 <= model_dim self ->
  rows_of_width (Z.to_nat (model_dim self)) y ->
  (exists out,
     decode self y = Ok out /\
     length out = samples self /\
     forall t j, (t < samples self)%nat ->
       cell out t j
       = sumZ (map (fun i => gather_term self y t j i (gate_at self i t))
                   (seq 0 (choices self)))) /\
  (forall i t j g e s,
     index_at self i t = Some e -> location_at self i t = Some s ->
     0 <= e * capacity self + s -> s < capacity self ->
     gather_term self y t j i (Some g)
     = g * cell y (Z.to_nat (e * capacity self + s)) j) /\
  (forall i t j g s,
     location_at self i t = Some s -> capacity self <= s ->
     gather_term self y t j i g = 0).
Proof.
  intros Hinst Hcomp Hdim Hy. split; [|split].
  - apply decode_cells; assumption.
  - intros i t j g e s He Hs Hrow Hcap. unfold gather_term. rewrite He, Hs.
    destruct (Z.ltb_spec s (capacity self)); [|lia].
    unfold zcell, zlookup, slot_row, cell.
    destruct (Z.ltb_spec (e * capacity self + s) 0); [lia|reflexivity].
  - intros i t j g s Hs Hcap. unfold gather_term. rewrite Hs.
    destruct g; [|reflexivity].
    destruct (index_at self i t); [|reflexivity].
    decide_ltb; [lia|reflexivity].
Qed.

Lemma decode_combines_all_choices_witness :
  exists out,
    decode Examples.top2 [[5]; [7]] = Ok out /\
    length out = samples Examples.top2 /\
    forall t j, (t < samples Examples.top2)%nat ->
      cell out t j
      = sumZ (map (fun i => gather_term Examples.top2 [[5]; [7]] t j i
                              (gate_at Examples.top2 i t))
                  (seq 0 (choices Examples.top2))).
Proof.
  refine (proj1 (decode_combines_all_choices Examples.top2 [[5]; [7]]
                   top2_installed _ _ _)).
  - split; vm_compute; lia.
  - vm_compute; discriminate.
  - repeat constructor.
Defined.

End DispatchFacts.

(** * Properties of the collectives *)

Module CommunicateFacts.
Import Communicate SumFacts.

Local Open Scope nat_scope.

(** ** A group of one *)

Lemma prepare_alone has_all_to_all_single grp p :
  get_world_size grp <= 1 ->
  trace (prepare has_all_to_all_single grp p) = trace p.
Proof.
  intros Hone. unfold prepare.
  destruct (prepared p); [reflexivity|].
  destruct (Nat.ltb_spec 1 (get_world_size grp)); [lia|].
  rewrite andb_false_r.
  destruct (negb has_all_to_all_single && _); reflexivity.
Qed.

(** C8: when the world size of the group is 1, [AllToAll.forward],
    [PreAllreduceSum.forward] and [PostAllreduceSum.forward] each return
    their input as it is, and the trace of the process gains no event: no
    communication is attempted. *)
Theorem group_of_one_is_identity has_all_to_all_single grp xs p :
  get_world_size grp = 1 ->
  ((AllToAll_forward has_all_to_all_single grp xs p).1.1 = Ok (xs (rank grp)) /\
   trace (AllToAll_forward has_all_to_all_single grp xs p).2 = trace p) /\
  ((PreAllreduceSum_forward grp xs p).1.1 = Ok (xs (rank grp)) /\
   (PreAllreduceSum_forward grp xs p).2 = p) /\
  ((PostAllreduceSum_forward grp xs p).1.1 = Ok (xs (rank grp)) /\
   (PostAllreduceSum_forward grp xs p).2 = p).
Proof.
  intros Hone. repeat split.
  - unfold AllToAll_forward. cbn [a2a_world_size]. rewrite Hone. reflexivity.
  - unfold AllToAll_forward. cbn [a2a_world_size]. rewrite Hone. cbn.
    apply prepare_alone. lia.
  - unfold PreAllreduceSum_forward. rewrite Hone. reflexivity.
  - unfold PreAllreduceSum_forward. rewrite Hone. reflexivity.
  - unfold PostAllreduceSum_forward. rewrite Hone. reflexivity.
  - unfold PostAllreduceSum_forward. rewrite Hone. reflexivity.
Qed.

Lemma group_of_one_is_identity_witness :
  get_world_size Examples.alone = 1 /\
  (PostAllreduceSum_forward Examples.alone Examples.ramp Examples.fresh).1.1
    = Ok (Examples.ramp 0).
Proof.
  split; [reflexivity|].
  exact (proj1 (proj2 (proj2
    (group_of_one_is_identity true Examples.alone Examples.ramp Examples.fresh eq_refl)))).
Defined.

(** ** The chunks of [torch.chunk] *)

Lemma chunk_bounds_few n chunks :
  0 < n < chunks -> length (chunk_bounds n chunks) = n.
Proof.
  intros Hn. unfold chunk_bounds.
  assert (Hs : (n + chunks - 1) / chunks = 1).
  { symmetry. apply (Nat.div_unique _ _ 1 (n - 1)); lia. }
  rewrite Hs. cbn [Nat.eqb andb]. unfold split_bounds.
  rewrite length_map, length_seq, Nat.div_1_r. lia.
Qed.

Lemma chunk_bounds_empty chunks :
  1 < chunks -> chunk_bounds 0 chunks = replicate chunks (0, 0).
Proof.
  intros Hc. unfold chunk_bounds.
  rewrite Nat.add_0_l, Nat.div_small by lia. reflexivity.
Qed.

Lemma replicate_empty_bounds a c :
  replicate c (0, 0) = map (fun j => (j * 0, 0)) (seq a c).
Proof.
  revert a. induction c as [|c IH]; intros a; [reflexivity|].
  cbn [replicate seq map]. rewrite Nat.mul_0_r. f_equal. apply IH.
Qed.

(** Equal pieces when the rows divide. *)
Lemma chunk_bounds_even chunks k :
  0 < chunks ->
  chunk_bounds (chunks * k) chunks = map (fun j => (j * k, k)) (seq 0 chunks).
Proof.
  intros Hc. unfold chunk_bounds.
  assert (Hs : (chunks * k + chunks - 1) / chunks = k).
  { symmetry. apply (Nat.div_unique _ _ k (chunks - 1)); lia. }
  rewrite Hs. destruct k as [|k].
  - rewrite Nat.mul_0_r. cbn [Nat.eqb andb]. apply replicate_empty_bounds.
  - cbn [Nat.eqb andb]. unfold split_bounds.
    assert (Hn : (chunks * S k + S k - 1) / S k = chunks).
    { symmetry. apply (Nat.div_unique _ _ chunks k); lia. }
    rewrite Hn. replace (Nat.max chunks 1) with chunks by lia.
    apply map_ext_in. intros j _.
    replace (S k - (S k * chunks - chunks * S k)) with (S k) by lia.
    destruct (j <? chunks - 1); reflexivity.
Qed.

(** ** The assertion of [PostAllreduceSum.forward] *)

(** C10, as stated, fails on an empty leading dimension: [torch.chunk]
    gives as many empty chunks as asked for, the assertion holds and the
    reduce-scatter is issued. *)
Lemma contract_empty_input_counterexample :
  ~ (forall grp xs p n rest,
       1 < get_world_size grp -> shape (xs (rank grp)) = n :: rest ->
       n < get_world_size grp ->
       (PostAllreduceSum_forward grp xs p).1.1 = Raise AssertionError).
Proof.
  intros H.
  specialize (H (Examples.pair 1) Examples.empty3 Examples.fresh 0 [3]).
  vm_compute in H. discriminate H; [lia|reflexivity|lia].
Qed.

(** C10, amended: in a group of P > 1 workers, [PostAllreduceSum.forward]
    fails with an AssertionError, before any collective, whenever
    [torch.chunk] cuts the leading dimension into a number of chunks other
    than P, in particular whenever the leading dimension is positive and
    smaller than P; the reduce-scatter is issued exactly when the cut
    gives P chunks, which includes an empty leading dimension. *)
Theorem contract_forward_asserts_chunk_count grp xs p n rest :
  1 < get_world_size grp ->
  shape (xs (rank grp)) = n :: rest ->
  (length (chunk_bounds n (get_world_size grp)) <> get_world_size grp ->
     (PostAllreduceSum_forward grp xs p).1.1 = Raise AssertionError /\
     (PostAllreduceSum_forward grp xs p).2 = p) /\
  (length (chunk_bounds n (get_world_size grp)) = get_world_size grp ->
     (PostAllreduceSum_forward grp xs p).2 = emit ReduceScatter p) /\
  (0 < n < get_world_size grp ->
     length (chunk_bounds n (get_world_size grp)) <> get_world_size grp) /\
  (n = 0 -> length (chunk_bounds n (get_world_size grp)) = get_world_size grp).
Proof.
  intros HP Hshape.
  assert (Hfwd : PostAllreduceSum_forward grp xs p =
    if length (chunk_bounds n (get_world_size grp)) =? get_world_size grp
    then (reduce_scatter grp
            (fun j => post_forward_chunks (get_world_size grp) (xs j))
            (default 0 (snd <$> chunk_bounds n (get_world_size grp) !! 0) :: rest),
          mk_sum_ctx grp (get_world_size grp) (Some (n :: rest)) (Some 0),
          emit ReduceScatter p)
    else (Raise AssertionError,
          mk_sum_ctx grp (get_world_size grp) (Some (n :: rest)) (Some 0), p)).
  { unfold PostAllreduceSum_forward, post_forward_chunks, torch_chunk.
    destruct (Nat.leb_spec (get_world_size grp) 1); [lia|].
    rewrite Hshape.
    destruct (Nat.eqb_spec (get_world_size grp) 0); [lia|].
    cbn [mbind outcome_bind]. rewrite length_map.
    destruct (Nat.eqb_spec (length (chunk_bounds n (get_world_size grp)))
                           (get_world_size grp)) as [Heq|Hne]; [|reflexivity].
    rewrite !list_lookup_fmap.
    destruct (chunk_bounds n (get_world_size grp) !! 0) as [b|] eqn:Hb; [reflexivity|].
    apply lookup_ge_None in Hb. lia. }
  rewrite Hfwd. repeat split.
  - destruct (Nat.eqb_spec (length (chunk_bounds n (get_world_size grp)))
                           (get_world_size grp)); [contradiction|reflexivity].
  - destruct (Nat.eqb_spec (length (chunk_bounds n (get_world_size grp)))
                           (get_world_size grp)); [contradiction|reflexivity].
  - intros Heq. rewrite Heq, Nat.eqb_refl. reflexivity.
  - intros Hn. rewrite chunk_bounds_few by lia. lia.
  - intros ->. rewrite chunk_bounds_empty by lia. apply length_replicate.
Qed.

Lemma contract_forward_asserts_chunk_count_witness :
  (1 < get_world_size (Examples.pair 1) /\
   shape (Examples.row3 (rank (Examples.pair 1))) = [1; 3]) /\
  ((PostAllreduceSum_forward (Examples.pair 1) Examples.row3 Examples.fresh).1.1
     = Raise AssertionError /\
   (PostAllreduceSum_forward (Examples.pair 1) Examples.row3 Examples.fresh).2
     = Examples.fresh).
Proof.
  split; [split; [vm_compute; lia|reflexivity]|].
  refine (proj1 (contract_forward_asserts_chunk_count (Examples.pair 1) Examples.row3
                   Examples.fresh 1 [3] _ eq_refl) _).
  - vm_compute; lia.
  - vm_compute; lia.
Defined.

(** ** Filling a buffer through its chunks *)

Lemma gathered_S p xs : gathered (S p) xs = gathered p xs ++ data (xs p).
Proof.
  unfold gathered. rewrite seq_S, map_app, concat_app. cbn.
  rewrite app_nil_r. reflexivity.
Qed.

Lemma gathered_length p xs m :
  (forall j, j < p -> length (data (xs j)) = m) ->
  length (gathered p xs) = p * m.
Proof.
  induction p as [|p IH]; intros H; [reflexivity|].
  rewrite gathered_S, length_app, IH, H by (auto; intros; apply H; lia). lia.
Qed.

Lemma zip_seq_map {A} (f : nat -> A) a n :
  zip (seq a n) (map f (seq a n)) = map (fun j => (j, f j)) (seq a n).
Proof.
  revert a. induction n as [|n IH]; intros a; [reflexivity|].
  cbn. f_equal. apply IH.
Qed.

Lemma fill_views xs m p buf (vs : nat -> view) :
  (forall j, j < p -> v_offset (vs j) = j * m) ->
  (forall j, j < p -> length (data (xs j)) = m) ->
  foldl (fun b jv => write_view b (snd jv) (data (xs (fst jv))))
        buf (zip (seq 0 p) (map vs (seq 0 p)))
  = gathered p xs ++ drop (p * m) buf.
Proof.
  rewrite zip_seq_map.
  induction p as [|p IH]; intros Hoff Hlen; [reflexivity|].
  rewrite seq_S, map_app, foldl_app. cbn [map foldl fst snd plus].
  rewrite IH by (intros; first [apply Hoff|apply Hlen]; lia).
  unfold write_view. rewrite Hoff, Hlen by lia.
  rewrite take_app_length' by (symmetry; apply gathered_length; intros; apply Hlen; lia).
  rewrite drop_app_add' by (symmetry; apply gathered_length; intros; apply Hlen; lia).
  rewrite drop_drop, gathered_S, <- app_assoc.
  replace (p * m + m) with (S p * m) by lia. reflexivity.
Qed.

Lemma forallb_seq (f : nat -> bool) n :
  (forall j, j < n -> f j = true) -> forallb f (seq 0 n) = true.
Proof.
  intros H. apply forallb_forall. intros j Hj. apply in_seq in Hj. apply H. lia.
Qed.

Lemma forallb_map_seq {A} (f : A -> bool) (g : nat -> A) n :
  (forall j, j < n -> f (g j) = true) -> forallb f (map g (seq 0 n)) = true.
Proof.
  intros H. apply forallb_forall. intros x Hx.
  apply in_map_iff in Hx as (j & <- & Hj). apply in_seq in Hj. apply H. lia.
Qed.

(** [all_gather] into the [size grp] equal chunks of a buffer leaves the
    members' elements in the buffer, in rank order. *)
Lemma all_gather_fills grp xs m (vs : nat -> view) buf :
  rank grp < size grp ->
  (forall j, j < size grp -> v_offset (vs j) = j * m) ->
  (forall j, j < size grp -> numel_of (v_shape (vs j)) = m) ->
  (forall j, j < size grp -> numel (xs j) = m /\ length (data (xs j)) = m) ->
  length buf = size grp * m ->
  all_gather grp xs (map vs (seq 0 (size grp))) buf = Ok (gathered (size grp) xs).
Proof.
  intros Hr Hoff Hnum Hxs Hbuf. unfold all_gather.
  rewrite length_map, length_seq, Nat.eqb_refl. cbn [negb].
  rewrite (proj1 (Hxs _ Hr)).
  rewrite forallb_map_seq by (intros j Hj; apply Nat.eqb_eq, Hnum, Hj).
  rewrite forallb_seq by (intros j Hj; apply Nat.eqb_eq, Hxs, Hj).
  cbn [negb]. f_equal.
  rewrite (fill_views xs m) by (auto; intros; apply Hxs; assumption).
  rewrite drop_ge by lia. apply app_nil_r.
Qed.

Lemma torch_chunk_even chunks k n rest :
  0 < chunks -> n = chunks * k ->
  torch_chunk (n :: rest) chunks
  = Ok (map (fun j => mk_view (j * k * numel_of rest) (k :: rest)) (seq 0 chunks)).
Proof.
  intros Hc ->. unfold torch_chunk.
  destruct (Nat.eqb_spec chunks 0); [lia|].
  rewrite chunk_bounds_even, map_map by assumption. reflexivity.
Qed.

Lemma numel_cons n rest : numel_of (n :: rest) = n * numel_of rest.
Proof. reflexivity. Qed.

(** ** [PreAllreduceSum.forward] *)

Lemma pre_forward_gathers p r xs pr n rest :
  1 < p -> r < p ->
  (forall j, j < p -> shape (xs j) = n :: rest /\ well_formed (xs j)) ->
  PreAllreduceSum_forward (mk_group true p r) xs pr
  = (Ok (mk_tensor (n * p :: rest) (gathered p xs)),
     mk_sum_ctx (mk_group true p r) p (Some (n :: rest)) None,
     emit AllGather pr).
Proof.
  intros Hp Hr Hxs. unfold PreAllreduceSum_forward.
  cbn [get_world_size initialised size rank].
  destruct (Nat.leb_spec p 1); [lia|].
  destruct (Hxs r Hr) as [Hsh Hwf].
  unfold torch_empty. cbn [shape data]. unfold numel. rewrite Hsh.
  rewrite (torch_chunk_even p 1) by lia.
  rewrite (all_gather_fills (mk_group true p r) xs (numel_of (n :: rest))
             (fun j => mk_view (j * 1 * numel_of [numel_of (n :: rest)])
                               [1; numel_of (n :: rest)])).
  - reflexivity.
  - exact Hr.
  - intros j _. cbn. lia.
  - intros j _. cbn. lia.
  - intros j Hj. destruct (Hxs j Hj) as [Hs Hw].
    unfold well_formed, numel in *. rewrite Hs in *. auto.
  - rewrite length_replicate. cbn. lia.
Qed.

Lemma gathered_block p xs m j :
  j < p ->
  (forall i, i < p -> length (data (xs i)) = m) ->
  take m (drop (j * m) (gathered p xs)) = data (xs j).
Proof.
  induction p as [|p IH]; intros Hj Hlen; [lia|].
  rewrite gathered_S.
  assert (HG : length (gathered p xs) = p * m)
    by (apply gathered_length; intros; apply Hlen; lia).
  destruct (decide (j = p)) as [->|Hne].
  - rewrite drop_app_length' by congruence.
    apply take_ge. rewrite Hlen by lia. lia.
  - rewrite drop_app_le by nia.
    rewrite take_app_le by (rewrite length_drop; nia).
    apply IH; [lia|]. intros; apply Hlen; lia.
Qed.

Lemma div_shard n p R : 0 < p -> n * p * R / p = n * R.
Proof.
  intros Hp. replace (n * p * R) with (n * R * p) by lia.
  apply Nat.div_mul. lia.
Qed.

(** C7, as stated, fails: the result has no new axis. Two members with
    two rows each get four rows, where a new leading axis of size P would
    give the shape [2; 2; 1]. *)
Lemma expand_new_axis_counterexample :
  ~ (forall grp xs pr out,
       1 < get_world_size grp ->
       (PreAllreduceSum_forward grp xs pr).1.1 = Ok out ->
       shape out = get_world_size grp :: shape (xs (rank grp))).
Proof.
  intros H.
  specialize (H (Examples.pair 0) Examples.ramp Examples.fresh
                (mk_tensor [4; 1] [1; 2; 11; 12]%Z)).
  cbn in H. discriminate H; [lia|reflexivity].
Qed.

(** C7, amended: in a group of P > 1 workers whose members pass
    well-formed tensors of one shape [n :: rest], [PreAllreduceSum.forward]
    returns on every rank the same tensor: the members' elements in rank
    order, concatenated along the existing leading axis into the shape
    [n * P :: rest] (no axis is added; the leading dimension is P only for
    n = 1). Piece [j] of its P equal pieces is member [j]'s contribution. *)
Theorem expand_forward_concatenates p r xs pr n rest :
  1 < p -> r < p ->
  (forall j, j < p -> shape (xs j) = n :: rest /\ well_formed (xs j)) ->
  (PreAllreduceSum_forward (mk_group true p r) xs pr).1.1
    = Ok (mk_tensor (n * p :: rest) (gathered p xs)) /\
  (forall j, j < p ->
     block p j (mk_tensor (n * p :: rest) (gathered p xs)) = data (xs j)).
Proof.
  intros Hp Hr Hxs. split.
  - rewrite (pre_forward_gathers p r xs pr n rest) by assumption. reflexivity.
  - intros j Hj. unfold block, numel. cbn [shape data].
    rewrite numel_cons, div_shard by lia.
    apply gathered_block; [assumption|].
    intros i Hi. destruct (Hxs i Hi) as [Hs Hw].
    unfold well_formed, numel in Hw. rewrite Hs in Hw. exact Hw.
Qed.

Lemma ramp_shapes j :
  j < 2 -> shape (Examples.ramp j) = [2; 1] /\ well_formed (Examples.ramp j).
Proof. intros _. split; reflexivity. Qed.

Lemma expand_forward_concatenates_witness :
  (PreAllreduceSum_forward (mk_group true 2 0) Examples.ramp Examples.fresh).1.1
    = Ok (mk_tensor [2 * 2; 1] (gathered 2 Examples.ramp)).
Proof.
  refine (proj1 (expand_forward_concatenates 2 0 Examples.ramp Examples.fresh 2 [1]
                   _ _ ramp_shapes)).
  - lia.
  - lia.
Defined.

(** ** Reduce-scatter over equal chunks *)

Lemma mapM_seq_Some {A} (f : nat -> option A) (g : nat -> A) a n :
  (forall j, a <= j < a + n -> f j = Some (g j)) ->
  mapM f (seq a n) = Some (map g (seq a n)).
Proof.
  revert a. induction n as [|n IH]; intros a H; [reflexivity|].
  cbn. rewrite H by lia. cbn. rewrite IH by (intros; apply H; lia). reflexivity.
Qed.

Lemma reduce_scatter_sums grp lists out_shape (chunk : nat -> nat -> tensor) :
  rank grp < size grp ->
  (forall w, w < size grp -> lists w = Ok (map (chunk w) (seq 0 (size grp)))) ->
  (forall w j, w < size grp -> j < size grp ->
     numel (chunk w j) = numel_of out_shape) ->
  reduce_scatter grp lists out_shape
  = Ok (mk_tensor out_shape
          (vsum (numel_of out_shape)
                (map (fun w => data (chunk w (rank grp))) (seq 0 (size grp))))).
Proof.
  intros Hr Hlists Hnum.
  assert (Hc : forall w, w < size grp ->
            contribution (size grp) (rank grp) (numel_of out_shape) (lists w)
            = Some (data (chunk w (rank grp)))).
  { intros w Hw. unfold contribution. rewrite Hlists by assumption.
    rewrite length_map, length_seq, Nat.eqb_refl.
    rewrite forallb_map_seq by (intros j Hj; apply Nat.eqb_eq, Hnum; assumption).
    cbn [andb]. rewrite list_lookup_fmap, lookup_seq_lt by assumption. reflexivity. }
  unfold reduce_scatter. rewrite Hc by assumption.
  rewrite (mapM_seq_Some _ (fun w => data (chunk w (rank grp))))
    by (intros; apply Hc; lia).
  reflexivity.
Qed.

(** ** [PreAllreduceSum.backward], [PostAllreduceSum.forward] and
    [PostAllreduceSum.backward] on tensors of one shape *)

Lemma read_view_chunk buf j k rest :
  read_view buf (mk_view (j * k * numel_of rest) (k :: rest))
  = mk_tensor (k :: rest)
      (take (k * numel_of rest) (drop (j * (k * numel_of rest)) buf)).
Proof.
  unfold read_view. cbn [v_shape v_offset]. rewrite numel_cons.
  replace (j * k * numel_of rest) with (j * (k * numel_of rest)) by lia.
  reflexivity.
Qed.

Lemma block_of_shape p r t n rest :
  0 < p -> shape t = n * p :: rest ->
  block p r t = take (n * numel_of rest) (drop (r * (n * numel_of rest)) (data t)).
Proof.
  intros Hp Hs. unfold block, numel. rewrite Hs, numel_cons, div_shard by lia.
  reflexivity.
Qed.

Lemma post_forward_chunks_even p t n rest :
  0 < p -> shape t = n * p :: rest ->
  post_forward_chunks p t
  = Ok (map (fun j => mk_tensor (n :: rest) (block p j t)) (seq 0 p)).
Proof.
  intros Hp Hs. unfold post_forward_chunks. rewrite Hs.
  rewrite (torch_chunk_even p n) by lia. cbn [mbind outcome_bind].
  rewrite length_map, length_seq, Nat.eqb_refl, map_map.
  f_equal. apply map_ext. intros j.
  rewrite read_view_chunk, (block_of_shape p j t n rest) by assumption.
  reflexivity.
Qed.

Lemma pre_backward_chunks_even p t n rest :
  0 < p -> shape t = n * p :: rest ->
  pre_backward_chunks p t
  = Ok (map (fun j => mk_tensor [1; n * numel_of rest] (block p j t)) (seq 0 p)).
Proof.
  intros Hp Hs. unfold pre_backward_chunks, view_rows, numel.
  rewrite Hs, numel_cons.
  destruct (Nat.ltb_spec 0 p); [|lia].
  replace (n * p * numel_of rest) with (n * numel_of rest * p) by lia.
  rewrite Nat.Div0.mod_mul, Nat.div_mul by lia.
  cbn [Nat.eqb andb mbind outcome_bind shape data].
  rewrite (torch_chunk_even p 1) by lia. cbn [mbind outcome_bind].
  rewrite map_map. f_equal. apply map_ext. intros j.
  rewrite read_view_chunk, (block_of_shape p j t n rest) by assumption.
  cbn [numel_of foldr]. rewrite !Nat.mul_1_l, !Nat.mul_1_r. reflexivity.
Qed.

Lemma reduced_shard_shape p r xs n rest :
  0 < p -> shape (xs r) = n * p :: rest ->
  reduced_shard p r xs
  = vsum (n * numel_of rest) (map (fun w => block p r (xs w)) (seq 0 p)).
Proof.
  intros Hp Hs. unfold reduced_shard, numel.
  rewrite Hs, numel_cons, div_shard by lia. reflexivity.
Qed.

Lemma post_forward_reduces p r xs pr n rest :
  1 < p -> r < p ->
  (forall j, j < p -> shape (xs j) = n * p :: rest /\ well_formed (xs j)) ->
  PostAllreduceSum_forward (mk_group true p r) xs pr
  = (Ok (mk_tensor (n :: rest) (reduced_shard p r xs)),
     mk_sum_ctx (mk_group true p r) p (Some (n * p :: rest)) (Some 0),
     emit ReduceScatter pr).
Proof.
  intros Hp Hr Hxs. unfold PostAllreduceSum_forward.
  cbn [get_world_size initialised size rank].
  destruct (Nat.leb_spec p 1); [lia|].
  destruct (Hxs r Hr) as [Hsh _].
  rewrite (post_forward_chunks_even p (xs r) n rest) by (auto; lia).
  rewrite list_lookup_fmap, lookup_seq_lt by lia. cbn [fmap option_fmap option_map shape].
  rewrite Hsh.
  rewrite (reduce_scatter_sums (mk_group true p r) _ (n :: rest)
             (fun w j => mk_tensor (n :: rest) (block p j (xs w)))).
  - cbn [rank size data]. rewrite (reduced_shard_shape p r xs n rest) by (auto; lia).
    reflexivity.
  - exact Hr.
  - intros w Hw. cbn [size] in *.
    apply post_forward_chunks_even; [lia|apply Hxs; assumption].
  - intros w j _ _. reflexivity.
Qed.

Lemma pre_backward_reduces p r gs pr n rest :
  1 < p -> r < p ->
  (forall j, j < p -> shape (gs j) = n * p :: rest /\ well_formed (gs j)) ->
  PreAllreduceSum_backward
    (mk_sum_ctx (mk_group true p r) p (Some (n :: rest)) None) gs pr
  = (Ok (mk_tensor (n :: rest) (reduced_shard p r gs)), emit ReduceScatter pr).
Proof.
  intros Hp Hr Hgs. unfold PreAllreduceSum_backward.
  cbn [ctx_group ctx_num_nodes ctx_input_shape get_world_size initialised size rank].
  destruct (Nat.leb_spec p 1); [lia|].
  destruct (Hgs r Hr) as [Hsh _].
  rewrite (pre_backward_chunks_even p (gs r) n rest) by (auto; lia).
  rewrite (reduce_scatter_sums (mk_group true p r) _ (n :: rest)
             (fun w j => mk_tensor [1; n * numel_of rest] (block p j (gs w)))).
  - cbn [rank size data]. rewrite (reduced_shard_shape p r gs n rest) by (auto; lia).
    reflexivity.
  - exact Hr.
  - intros w Hw. cbn [size] in *.
    apply pre_backward_chunks_even; [lia|apply Hgs; assumption].
  - intros w j _ _. unfold numel. cbn [shape]. rewrite !numel_cons.
    change (numel_of []) with 1. lia.
Qed.

Lemma post_backward_gathers p r hs pr n rest :
  1 < p -> r < p ->
  (forall j, j < p -> shape (hs j) = n :: rest /\ well_formed (hs j)) ->
  PostAllreduceSum_backward
    (mk_sum_ctx (mk_group true p r) p (Some (n * p :: rest)) (Some 0)) hs pr
  = (Ok (mk_tensor (n * p :: rest) (gathered p hs)), emit AllGather pr).
Proof.
  intros Hp Hr Hhs. unfold PostAllreduceSum_backward.
  cbn [ctx_group ctx_num_nodes ctx_input_shape].
  destruct (Nat.leb_spec p 1); [lia|].
  unfold torch_empty. cbn [shape data].
  rewrite (torch_chunk_even p n) by lia.
  rewrite (all_gather_fills (mk_group true p r) hs (n * numel_of rest)
             (fun j => mk_view (j * n * numel_of rest) (n :: rest))).
  - reflexivity.
  - exact Hr.
  - intros j _. cbn. lia.
  - intros j _. reflexivity.
  - intros j Hj. destruct (Hhs j Hj) as [Hs Hw].
    unfold well_formed, numel in *. rewrite Hs in *. auto.
  - rewrite length_replicate, numel_cons. cbn [size]. lia.
Qed.

(** ** Inner products over a group *)

Lemma dot_app u1 u2 v :
  dot (u1 ++ u2) v
  = (dot u1 (take (length u1) v) + dot u2 (drop (length u1) v))%Z.
Proof. unfold dot. rewrite zip_with_app_l. apply sumZ_app. Qed.

Lemma dot_take_r u v : dot u (take (length u) v) = dot u v.
Proof. unfold dot. rewrite zip_with_take_r. reflexivity. Qed.

Lemma dot_comm u v : dot u v = dot v u.
Proof.
  unfold dot. revert v. induction u as [|a u IH]; intros [|b v]; try reflexivity.
  cbn [zip_with]. rewrite !sumZ_cons, IH. lia.
Qed.

Lemma dot_nil_r u : dot u [] = 0%Z.
Proof. rewrite dot_comm. reflexivity. Qed.

Lemma dot_vadd u a b :
  length a = length b ->
  dot u (vadd a b) = (dot u a + dot u b)%Z.
Proof.
  unfold dot, vadd. revert a b.
  induction u as [|x u IH]; intros [|y a] [|z b] H; try reflexivity; try discriminate.
  cbn [zip_with]. rewrite !sumZ_cons, IH by (cbn in H; lia). lia.
Qed.

Lemma dot_vzeros u m : dot u (vzeros m) = 0%Z.
Proof.
  unfold dot, vzeros. revert m. induction u as [|x u IH]; intros [|m]; try reflexivity.
  cbn [replicate zip_with]. rewrite sumZ_cons, IH. lia.
Qed.

Lemma length_foldl_vadd m acc parts :
  length acc = m -> Forall (fun q => length q = m) parts ->
  length (foldl vadd acc parts) = m.
Proof.
  intros Hacc Hparts. revert acc Hacc.
  induction Hparts as [|q parts Hq _ IH]; intros acc Hacc; [exact Hacc|].
  cbn [foldl]. apply IH. unfold vadd. rewrite length_zip_with. lia.
Qed.

Lemma dot_vsum u m (part : nat -> list Z) l :
  (forall w, w ∈ l -> length (part w) = m) ->
  dot u (vsum m (map part l)) = sumZ (map (fun w => dot u (part w)) l).
Proof.
  intros Hlen. unfold vsum.
  assert (H : forall acc, length acc = m ->
            dot u (foldl vadd acc (map part l))
            = (dot u acc + sumZ (map (fun w => dot u (part w)) l))%Z).
  { induction l as [|w l IH]; intros acc Hacc.
    - cbn. lia.
    - cbn [map foldl]. rewrite IH.
      + rewrite dot_vadd, sumZ_cons by (rewrite Hlen; [lia|set_solver]). lia.
      + intros; apply Hlen; set_solver.
      + unfold vadd. rewrite length_zip_with, Hlen by set_solver. lia. }
  rewrite H by apply length_replicate. rewrite dot_vzeros. lia.
Qed.

Lemma length_concat_blocks (A : nat -> list Z) c p :
  (forall j, j < p -> length (A j) = c) ->
  length (concat (map A (seq 0 p))) = p * c.
Proof.
  induction p as [|p IH]; intros H; [reflexivity|].
  rewrite seq_S, map_app, concat_app, length_app, IH by (intros; apply H; lia).
  cbn. rewrite app_nil_r, H by lia. lia.
Qed.

(** The inner product with a concatenation of [p] pieces of [c] elements
    is the sum of the inner products with the pieces of the other side. *)
Lemma dot_concat_l (A : nat -> list Z) c p v :
  (forall j, j < p -> length (A j) = c) ->
  dot (concat (map A (seq 0 p))) v
  = sumZ (map (fun j => dot (A j) (take c (drop (j * c) v))) (seq 0 p)).
Proof.
  induction p as [|p IH]; intros H; [reflexivity|].
  rewrite seq_S, !map_app, concat_app, sumZ_app, dot_app.
  rewrite (length_concat_blocks A c p) by (intros; apply H; lia).
  rewrite <- (length_concat_blocks A c p) at 1 by (intros; apply H; lia).
  rewrite dot_take_r, IH by (intros; apply H; lia).
  f_equal. cbn [map concat plus]. rewrite app_nil_r, sumZ_cons.
  rewrite <- (H p) at 2 by lia. rewrite dot_take_r.
  change (sumZ []) with 0%Z. lia.
Qed.

Lemma length_block p r t c :
  r < p -> length (data t) = p * c -> numel t = p * c ->
  length (block p r t) = c /\
  block p r t = take c (drop (r * c) (data t)).
Proof.
  intros Hr Hd Hn. unfold block. rewrite Hn.
  replace (p * c / p) with c by (rewrite Nat.mul_comm, Nat.div_mul; lia).
  split; [|reflexivity].
  rewrite length_take, length_drop. nia.
Qed.

(** The exchange of an all-to-all is its own adjoint: pairing what the
    ranks receive with the tensors [gs] is pairing what they sent with
    what they receive from [gs]. *)
Lemma exchanged_adjoint p c xs gs :
  (forall j, j < p -> length (data (xs j)) = p * c /\ numel (xs j) = p * c) ->
  (forall j, j < p -> length (data (gs j)) = p * c /\ numel (gs j) = p * c) ->
  group_dot p (fun r => exchanged p r xs) (fun r => data (gs r))
  = group_dot p (fun r => data (xs r)) (fun r => exchanged p r gs).
Proof.
  intros Hxs Hgs. unfold group_dot, exchanged.
  transitivity
    (sumZ (map (fun r => sumZ (map (fun j =>
       dot (block p r (xs j)) (block p j (gs r))) (seq 0 p))) (seq 0 p))).
  - apply sumZ_map_ext. intros r Hr. apply elem_of_seq in Hr.
    rewrite (dot_concat_l _ c).
    + apply sumZ_map_ext. intros j Hj. apply elem_of_seq in Hj.
      destruct (Hgs r) as [Hd Hn]; [lia|].
      rewrite (proj2 (length_block p j (gs r) c ltac:(lia) Hd Hn)). reflexivity.
    + intros j Hj. destruct (Hxs j Hj) as [Hd Hn].
      apply (length_block p r (xs j) c); [lia|assumption|assumption].
  - rewrite sumZ_swap.
    apply sumZ_map_ext. intros r Hr. apply elem_of_seq in Hr.
    rewrite dot_comm, (dot_concat_l _ c).
    + apply sumZ_map_ext. intros j Hj. apply elem_of_seq in Hj.
      destruct (Hxs r) as [Hd Hn]; [lia|].
      rewrite (proj2 (length_block p j (xs r) c ltac:(lia) Hd Hn)).
      apply dot_comm.
    + intros j Hj. destruct (Hgs j Hj) as [Hd Hn].
      apply (length_block p r (gs j) c); [lia|assumption|assumption].
Qed.

(** Gathering and reduce-scattering are adjoint: pairing the gathered
    tensor with the gradients [gs] on every rank is pairing every member's
    tensor with its reduced shard of [gs]. *)
Lemma gathered_adjoint p m xs gs :
  (forall j, j < p -> length (data (xs j)) = m) ->
  (forall j, j < p -> length (data (gs j)) = p * m /\ numel (gs j) = p * m) ->
  group_dot p (fun _ => gathered p xs) (fun r => data (gs r))
  = group_dot p (fun r => data (xs r))
      (fun r => vsum m (map (fun w => block p r (gs w)) (seq 0 p))).
Proof.
  intros Hxs Hgs. unfold group_dot, gathered.
  transitivity
    (sumZ (map (fun r => sumZ (map (fun j =>
       dot (data (xs j)) (block p j (gs r))) (seq 0 p))) (seq 0 p))).
  - apply sumZ_map_ext. intros r Hr. apply elem_of_seq in Hr.
    rewrite (dot_concat_l _ m) by assumption.
    apply sumZ_map_ext. intros j Hj. apply elem_of_seq in Hj.
    destruct (Hgs r) as [Hd Hn]; [lia|].
    rewrite (proj2 (length_block p j (gs r) m ltac:(lia) Hd Hn)). reflexivity.
  - rewrite sumZ_swap.
    apply sumZ_map_ext. intros r Hr. apply elem_of_seq in Hr.
    rewrite dot_vsum; [reflexivity|].
    intros w Hw. apply elem_of_seq in Hw.
    destruct (Hgs w) as [Hd Hn]; [lia|].
    apply (length_block p r (gs w) m); [lia|assumption|assumption].
Qed.

(** ** The gradient of the all-to-all *)

Lemma forward_ctx has_all_to_all_single grp xs pr :
  (AllToAll_forward has_all_to_all_single grp xs pr).1.2
  = mk_a2a_ctx grp (get_world_size grp).
Proof.
  unfold AllToAll_forward.
  destruct (_ || _); [reflexivity|].
  destruct (Z.land _ 1 =? 1)%Z.
  - destruct (all_to_all_single grp xs); reflexivity.
  - destruct (external_all2all grp xs); reflexivity.
Qed.

Lemma all_to_all_single_even p r k rest xs :
  0 < p ->
  (forall j, j < p -> shape (xs j) = k * p :: rest) ->
  r < p ->
  all_to_all_single (mk_group true p r) xs
  = Ok (mk_tensor (k * p :: rest) (exchanged p r xs)).
Proof.
  intros Hp Hsh Hr. unfold all_to_all_single. cbn [rank size].
  rewrite (Hsh r Hr), Nat.Div0.mod_mul. cbn [Nat.eqb negb].
  unfold same_shapes.
  rewrite forallb_seq by (intros j Hj; apply bool_decide_eq_true, Hsh, Hj).
  reflexivity.
Qed.

Lemma balanced_sizes p k rest t :
  shape t = k * p :: rest -> well_formed t ->
  length (data t) = p * (k * numel_of rest) /\ numel t = p * (k * numel_of rest).
Proof.
  unfold well_formed, numel. intros -> ->. rewrite numel_cons. lia.
Qed.

(** C4: the backward of the all-to-all, applied to a gradient tensor, is
    the forward all-to-all applied to that tensor over the group saved by
    the forward call, in the same process state. Under a balanced
    partition (every member's leading dimension is a multiple of the group
    size, one shape for all) the forward with the standard backend is the
    exchange of equal pieces, and that exchange is its own adjoint for the
    inner product summed over the group. *)
Theorem all_to_all_backward_is_forward has_all_to_all_single grp xs p0 grads pr :
  AllToAll_backward has_all_to_all_single
    (AllToAll_forward has_all_to_all_single grp xs p0).1.2 grads pr
  = ((AllToAll_forward has_all_to_all_single grp grads pr).1.1,
     (AllToAll_forward has_all_to_all_single grp grads pr).2) /\
  (forall p k rest ys gs,
     1 < p ->
     (forall j, j < p -> shape (ys j) = k * p :: rest /\ well_formed (ys j)) ->
     (forall j, j < p -> shape (gs j) = k * p :: rest /\ well_formed (gs j)) ->
     (forall r q, r < p -> a2a_type q = 1%Z ->
        (AllToAll_forward true (mk_group true p r) ys q).1.1
        = Ok (mk_tensor (k * p :: rest) (exchanged p r ys))) /\
     group_dot p (fun r => exchanged p r ys) (fun r => data (gs r))
     = group_dot p (fun r => data (ys r)) (fun r => exchanged p r gs)).
Proof.
  split.
  - unfold AllToAll_backward. rewrite forward_ctx. cbn [a2a_group].
    destruct (AllToAll_forward has_all_to_all_single grp grads pr) as [[o c] q].
    reflexivity.
  - intros p k rest ys gs Hp Hys Hgs. split.
    + intros r q Hr Hq. unfold AllToAll_forward.
      assert (Hprep : a2a_type (prepare true (mk_group true p r) q) = 1%Z).
      { unfold prepare. destruct (prepared q); [exact Hq|].
        cbn [negb andb a2a_type]. rewrite Hq. reflexivity. }
      cbn [a2a_world_size get_world_size initialised size].
      destruct (Nat.leb_spec p 1); [lia|].
      rewrite Hprep. change (1 =? 0)%Z with false.
      change (Z.land 1 8 =? 8)%Z with false. cbn [orb andb emit_if].
      rewrite Hprep. change (Z.land 1 1 =? 1)%Z with true. cbn iota.
      rewrite (all_to_all_single_even p r k rest ys) by (auto; try lia; apply Hys).
      reflexivity.
    + apply (exchanged_adjoint p (k * numel_of rest)).
      * intros j Hj. apply balanced_sizes; apply Hys; assumption.
      * intros j Hj. apply balanced_sizes; apply Hgs; assumption.
Qed.

Lemma ramp_balanced j :
  j < 2 -> shape (Examples.ramp j) = [1 * 2; 1] /\ well_formed (Examples.ramp j).
Proof. intros _. split; reflexivity. Qed.

Lemma all_to_all_backward_is_forward_witness :
  group_dot 2 (fun r => exchanged 2 r Examples.ramp) (fun r => data (Examples.ramp r))
  = group_dot 2 (fun r => data (Examples.ramp r)) (fun r => exchanged 2 r Examples.ramp).
Proof.
  refine (proj2 (proj2 (all_to_all_backward_is_forward true (Examples.pair 0)
            Examples.ramp Examples.fresh Examples.ramp Examples.fresh)
          2 1 [1] Examples.ramp Examples.ramp _ ramp_balanced ramp_balanced)).
  lia.
Defined.

(** ** Expand and Contract *)

(** C5: on tensors of one shape in a group of P > 1 workers, Expand and
    Contract mirror each other. Expand's forward issues one all-gather and
    returns the members' tensors concatenated in rank order; its backward
    issues one reduce-scatter and returns to rank [r] the sum over the
    members of piece [r] of their gradients, in the input's shape.
    Contract's forward is that reduce-scatter and its backward is that
    all-gather, reassembling the full concatenated gradient. The two are
    adjoint for the inner product summed over the group. *)
Theorem expand_contract_mirrored p r xs gs pr n rest :
  1 < p -> r < p ->
  (forall j, j < p -> shape (xs j) = n :: rest /\ well_formed (xs j)) ->
  (forall j, j < p -> shape (gs j) = n * p :: rest /\ well_formed (gs j)) ->
  PreAllreduceSum_forward (mk_group true p r) xs pr
  = (Ok (mk_tensor (n * p :: rest) (gathered p xs)),
     (PreAllreduceSum_forward (mk_group true p r) xs pr).1.2,
     emit AllGather pr) /\
  PreAllreduceSum_backward (PreAllreduceSum_forward (mk_group true p r) xs pr).1.2 gs pr
  = (Ok (mk_tensor (n :: rest) (reduced_shard p r gs)), emit ReduceScatter pr) /\
  PostAllreduceSum_forward (mk_group true p r) gs pr
  = (Ok (mk_tensor (n :: rest) (reduced_shard p r gs)),
     (PostAllreduceSum_forward (mk_group true p r) gs pr).1.2,
     emit ReduceScatter pr) /\
  PostAllreduceSum_backward (PostAllreduceSum_forward (mk_group true p r) gs pr).1.2 xs pr
  = (Ok (mk_tensor (n * p :: rest) (gathered p xs)), emit AllGather pr) /\
  group_dot p (fun _ => gathered p xs) (fun r => data (gs r))
  = group_dot p (fun r => data (xs r)) (fun r => reduced_shard p r gs).
Proof.
  intros Hp Hr Hxs Hgs.
  rewrite !(pre_forward_gathers p r xs pr n rest) by assumption.
  rewrite !(post_forward_reduces p r gs pr n rest) by assumption.
  cbn [fst snd].
  split; [reflexivity|]. split; [apply pre_backward_reduces; assumption|].
  split; [reflexivity|]. split; [apply post_backward_gathers; assumption|].
  rewrite (gathered_adjoint p (n * numel_of rest)).
  - unfold group_dot. apply sumZ_map_ext. intros i Hi. apply elem_of_seq in Hi.
    rewrite (reduced_shard_shape p i gs n rest); [reflexivity|lia|].
    apply Hgs. lia.
  - intros j Hj. destruct (Hxs j Hj) as [Hs Hw].
    unfold well_formed, numel in Hw. rewrite Hs in Hw. exact Hw.
  - intros j Hj. destruct (Hgs j Hj) as [Hs Hw].
    unfold well_formed, numel in *. rewrite Hs in *. rewrite numel_cons in *. lia.
Qed.

Lemma ramp4_shapes j :
  j < 2 -> shape (Examples.ramp4 j) = [2 * 2; 1] /\ well_formed (Examples.ramp4 j).
Proof. intros _. split; reflexivity. Qed.

Lemma expand_contract_mirrored_witness :
  PostAllreduceSum_forward (mk_group true 2 1) Examples.ramp4 Examples.fresh
  = (Ok (mk_tensor [2; 1] (reduced_shard 2 1 Examples.ramp4)),
     (PostAllreduceSum_forward (mk_group true 2 1) Examples.ramp4 Examples.fresh).1.2,
     emit ReduceScatter Examples.fresh).
Proof.
  refine (proj1 (proj2 (proj2
    (expand_contract_mirrored 2 1 Examples.ramp Examples.ramp4 Examples.fresh 2 [1]
       _ _ ramp_shapes ramp4_shapes)))).
  - lia.
  - lia.
Defined.

End CommunicateFacts.

(** * Further properties of the dispatcher *)

Module DispatchMore.
Import Dispatch SumFacts DispatchFacts Runs.

Local Open Scope Z_scope.

(** ** What a sequence of [update] calls keeps *)

Lemma run_updates_reachable self jit calls :
  reachable self jit ->
  reachable (run_updates self jit calls).1 (run_updates self jit calls).2.
Proof.
  revert self jit. induction calls as [|c calls IH]; intros self jit Hr; [exact Hr|].
  cbn [run_updates].
  destruct (update self (call_indices c) (call_locations c) (call_gates c)
              (call_capacity c) jit) as [[o self'] jit'] eqn:Hu.
  apply IH. eapply reachable_update; eauto.
Qed.

(** X1: whatever [update] calls follow the construction, the dispatcher
    keeps the expert count, the model dimension and the requested precision
    it was built with; its working precision stays float16 exactly when
    float16 was requested without HIP, and float32 otherwise; and the lane
    count [aligned_dim] stays [model_dim // 2] in float16 (so an odd
    [model_dim] leaves one column out of the lanes) and [model_dim] in
    float32. *)
Theorem construction_settings_are_kept is_hip e c m dt calls :
  let self := (run_updates (__init__ is_hip e c m dt) [] calls).1 in
  num_global_experts self = e /\
  model_dim self = m /\
  original_dtype self = dt /\
  dtype_ self = (if negb is_hip && dtype_eqb dt float16 then float16 else float32) /\
  m = (if negb is_hip && dtype_eqb dt float16
       then 2 * aligned_dim self + m mod 2 else aligned_dim self).
Proof.
  assert (H : forall calls self jit,
    let self' := (run_updates self jit calls).1 in
    num_global_experts self' = num_global_experts self /\
    model_dim self' = model_dim self /\
    dtype_ self' = dtype_ self /\
    original_dtype self' = original_dtype self /\
    aligned_dim self' = aligned_dim self).
  { clear. induction calls as [|c calls IH]; intros self jit; cbn [run_updates].
    - cbn. auto.
    - destruct (update self (call_indices c) (call_locations c) (call_gates c)
                  (call_capacity c) jit) as [[o self'] jit'] eqn:Hu.
      destruct (update_config _ _ _ _ _ _ _ _ _ Hu) as (H1 & H2 & H3 & H4 & H5).
      destruct (IH self' jit') as (I1 & I2 & I3 & I4 & I5).
      cbn zeta. repeat split; congruence. }
  intros self. destruct (H calls (__init__ is_hip e c m dt) []) as (H1 & H2 & H3 & H4 & H5).
  fold self in H1, H2, H3, H4, H5. cbn in H1, H2, H3, H4, H5.
  split; [exact H1|]. split; [exact H2|]. split; [exact H4|].
  rewrite H3, H5.
  destruct is_hip; cbn.
  - split; [reflexivity|]. rewrite Z.div_1_r. reflexivity.
  - destruct dt; cbn; (split; [reflexivity|]); rewrite ?Z.div_1_r; try reflexivity.
    pose proof (Z.div_mod m 2 ltac:(lia)). lia.
Qed.

(** ** The kernel cache *)

Lemma update_keeps_entries self indices locations gates capacity_arg jit o self' jit' k e :
  update self indices locations gates capacity_arg jit = (o, self', jit') ->
  kernel_pool self !! k = Some e -> kernel_pool self' !! k = Some e.
Proof.
  unfold update; cbn.
  destruct (map (map to_int32) indices !! 0%nat) as [first|]; cbn.
  2:{ intros [= <- <- <-]. cbn. auto. }
  destruct (_ || _).
  2:{ intros [= <- <- <-]. cbn. auto. }
  destruct (kernel_pool self !! _) as [e'|] eqn:Hlk; cbn.
  - intros [= <- <- <-]. destruct e' as [[[f b] g] o']. cbn. auto.
  - intros [= <- <- <-] Hk. cbn.
    rewrite lookup_insert_ne; [exact Hk|]. intros <-. congruence.
Qed.

(** X2: the kernel cache never evicts and never overwrites: an entry
    cached under a key is still there, unchanged, after any further
    sequence of [update] calls. *)
Theorem cache_entries_persist self jit calls k e :
  kernel_pool self !! k = Some e ->
  kernel_pool (run_updates self jit calls).1 !! k = Some e.
Proof.
  revert self jit. induction calls as [|c calls IH]; intros self jit Hk; [exact Hk|].
  cbn [run_updates].
  destruct (update self (call_indices c) (call_locations c) (call_gates c)
              (call_capacity c) jit) as [[o self'] jit'] eqn:Hu.
  apply IH. eapply update_keeps_entries; eauto.
Qed.

Lemma cache_entries_persist_witness :
  kernel_pool (run_updates after_one_shape.1 after_one_shape.2 [two_tokens]).1
    !! (1, 1) = Some one_token_entry.
Proof.
  apply cache_entries_persist. vm_compute. reflexivity.
Defined.

(** X3: after an [update] that returns, on any state reached from the
    construction, the three kernels in use are the ones specialized for
    the current sample size (the length of the first index tensor), the
    current capacity and the construction-time settings, and the helper
    has one entry per token: a state never keeps kernels of another
    shape. *)
Theorem kernels_in_use_match_shape
    self jit indices locations gates capacity_arg self' jit' first :
  reachable self jit ->
  update self indices locations gates capacity_arg jit = (Ok tt, self', jit') ->
  indices !! 0%nat = Some first ->
  expected_sample_size self' = Z.of_nat (length first) /\
  capacity self' = capacity_or capacity_arg (capacity self) /\
  func_fwd self' = Some (mk_kernel KForward (Z.of_nat (length first))
                           (num_global_experts self) (capacity self')
                           (aligned_dim self) (dtype_ self)) /\
  func_bwd_data self' = Some (mk_kernel KBackwardData (Z.of_nat (length first))
                                (num_global_experts self) (capacity self')
                                (aligned_dim self) (dtype_ self)) /\
  func_bwd_gate self' = Some (mk_kernel KBackwardGate (Z.of_nat (length first))
                                (num_global_experts self) (capacity self')
                                (aligned_dim self) (dtype_ self)) /\
  ones_helper self' = Some (replicate (length first) 1).
Proof.
  intros Hreach Hu H0.
  apply reachable_coherent in Hreach as Hcoh.
  destruct (update_returns _ _ _ _ _ _ _ _ Hcoh Hu)
    as (f1 & Hf1 & _ & _ & _ & Hs & Hc & Hfun).
  rewrite list_lookup_fmap, H0 in Hf1. injection Hf1 as <-.
  rewrite length_map in Hs.
  destruct (update_config _ _ _ _ _ _ _ _ _ Hu) as (He & _ & Hd & _ & Ha).
  apply funcs_fields in Hfun as (Hfw & Hbd & Hbg & Hon).
  unfold entry_for in *. cbn in Hfw, Hbd, Hbg, Hon.
  rewrite Hs, He, Hd, Ha in *. rewrite Nat2Z.id in Hon.
  repeat split; assumption.
Qed.

Lemma kernels_in_use_match_shape_witness :
  expected_sample_size Examples.top2 = Z.of_nat (length [0]).
Proof.
  exact (proj1 (kernels_in_use_match_shape (__init__ false 2 1 1 float32) []
    [[0]; [1]] [[0]; [0]] [[1]; [1]] None Examples.top2 Examples.top2_jit [0]
    (reachable_init false 2 1 1 float32) eq_refl eq_refl)).
Defined.

(** ** Builds and cache entries *)

Lemma update_builds_per_entry self indices locations gates capacity_arg jit o self' jit' :
  length jit = (3 * size (kernel_pool self))%nat ->
  update self indices locations gates capacity_arg jit = (o, self', jit') ->
  length jit' = (3 * size (kernel_pool self'))%nat.
Proof.
  intros Hlen. unfold update; cbn.
  destruct (map (map to_int32) indices !! 0%nat) as [first|]; cbn.
  2:{ intros [= <- <- <-]. cbn. exact Hlen. }
  destruct (_ || _).
  2:{ intros [= <- <- <-]. cbn. exact Hlen. }
  destruct (kernel_pool self !! _) as [e'|] eqn:Hlk; cbn.
  - intros [= <- <- <-]. destruct e' as [[[f b] g] o']. cbn. exact Hlen.
  - intros [= <- <- <-]. cbn.
    rewrite map_size_insert_None by exact Hlk.
    rewrite !length_app. cbn. lia.
Qed.

(** X4: on any state reached from the construction, the JIT was asked for
    exactly three kernels per cache entry, and no kernel of any kind was
    ever built twice for the same [(sample_size, capacity)]. *)
Theorem builds_match_cache self jit :
  reachable self jit ->
  length jit = (3 * size (kernel_pool self))%nat /\
  (forall kind s c, (build_count kind s c jit <= 1)%nat) /\
  (forall kind s c,
     build_count kind s c jit = 1%nat <-> is_Some (kernel_pool self !! (s, c))).
Proof.
  intros Hreach. split; [|split].
  - induction Hreach as [| ? ? ? ? ? ? ? ? ? _ IH Hupd]; [reflexivity|].
    eapply update_builds_per_entry; eauto.
  - intros kind s c. apply reachable_coherent in Hreach as [_ _ Hb].
    rewrite Hb. destruct (kernel_pool self !! (s, c)); cbn; lia.
  - intros kind s c. apply reachable_coherent in Hreach as [_ _ Hb].
    rewrite Hb. destruct (kernel_pool self !! (s, c)); cbn; split;
      try discriminate; eauto.
    intros [x Hx]. discriminate Hx.
Qed.

Lemma after_two_shapes_reachable : reachable after_two_shapes.1 after_two_shapes.2.
Proof. apply run_updates_reachable, reachable_init. Qed.

Lemma builds_match_cache_witness :
  length after_two_shapes.2 = (3 * size (kernel_pool after_two_shapes.1))%nat.
Proof.
  exact (proj1 (builds_match_cache _ _ after_two_shapes_reachable)).
Defined.

(** X5: going back to a shape seen before costs no build. On any state
    reached from the construction, an [update] whose
    [(sample_size, capacity)] has a cache entry returns without asking the
    JIT for anything, leaves the cache as it is and puts that entry's
    kernels in use. *)
Theorem cached_shape_is_reused
    self jit indices locations gates capacity_arg first e :
  reachable self jit ->
  indices !! 0%nat = Some first ->
  kernel_pool self !! (Z.of_nat (length first),
                       capacity_or capacity_arg (capacity self)) = Some e ->
  exists self',
    update self indices locations gates capacity_arg jit = (Ok tt, self', jit) /\
    kernel_pool self' = kernel_pool self /\
    funcs self' = Some e /\
    expected_sample_size self' = Z.of_nat (length first) /\
    capacity self' = capacity_or capacity_arg (capacity self).
Proof.
  intros Hreach H0 Hlk.
  apply reachable_coherent in Hreach as [Hpool Hcur Hb].
  unfold update; cbn.
  rewrite list_lookup_fmap, H0. cbn. rewrite length_map.
  set (s := Z.of_nat (length first)) in *.
  set (c := capacity_or capacity_arg (capacity self)) in *.
  destruct (negb (s =? expected_sample_size self) || negb (c =? capacity self)) eqn:Hchg.
  - rewrite Hlk. destruct e as [[[f b] g] o']. eexists. split; [reflexivity|].
    cbn. repeat split; reflexivity.
  - apply orb_false_elim in Hchg as [Hs Hc].
    apply negb_false_iff, Z.eqb_eq in Hs, Hc.
    eexists. split; [reflexivity|]. cbn.
    destruct Hcur as [Hminus|[Hlk' Hf]]; [lia|].
    rewrite <- Hs, <- Hc in Hlk', Hf.
    repeat split; try congruence.
    change (funcs self = Some e). congruence.
Qed.

Lemma cached_shape_is_reused_witness :
  exists self',
    update after_two_shapes.1 [[1]] [[0]] [[5]] None after_two_shapes.2
      = (Ok tt, self', after_two_shapes.2) /\
    kernel_pool self' = kernel_pool after_two_shapes.1 /\
    funcs self' = Some one_token_entry /\
    expected_sample_size self' = Z.of_nat (length [1]) /\
    capacity self' = capacity_or None (capacity after_two_shapes.1).
Proof.
  apply cached_shape_is_reused.
  - exact after_two_shapes_reachable.
  - reflexivity.
  - vm_compute. reflexivity.
Defined.

(** ** Calls without a usable routing assignment *)

(** X6: an [update] without any index tensor raises IndexError after it
    has already replaced the routing attributes; the shape, the cache, the
    kernels in use and the build log stay as they were. On the state it
    leaves, [encode] launches nothing and returns the all-zero dispatch
    buffer, and [decode] raises AttributeError. *)
Theorem update_without_routing self locations gates capacity_arg jit x y :
  dims_ok self ->
  let self' := (update self [] locations gates capacity_arg jit).1.2 in
  update self [] locations gates capacity_arg jit = (Raise IndexError, self', jit) /\
  indices_ self' = Some [] /\
  expected_sample_size self' = expected_sample_size self /\
  capacity self' = capacity self /\
  kernel_pool self' = kernel_pool self /\
  funcs self' = funcs self /\
  encode self' x
  = Ok (replicate (Z.to_nat (num_global_experts self * capacity self))
                  (vzeros (Z.to_nat (model_dim self)))) /\
  decode self' y = Raise AttributeError.
Proof.
  intros [Hrows Hcols] self'. subst self'. cbn.
  repeat split.
  - unfold encode, GatingEncoder_forward, torch_zeros. cbn.
    destruct (Z.ltb_spec (num_global_experts self * capacity self) 0); [lia|].
    destruct (Z.ltb_spec (model_dim self) 0); [lia|]. reflexivity.
Qed.

Lemma update_without_routing_witness :
  decode (update Examples.top2 [] [] [] None Examples.top2_jit).1.2 [[5]; [7]]
  = Raise AttributeError.
Proof.
  refine (proj2 (proj2 (proj2 (proj2 (proj2 (proj2 (proj2
    (update_without_routing Examples.top2 [] [] None Examples.top2_jit
       [[5]] [[5]; [7]] _)))))))).
  split; vm_compute; discriminate.
Defined.

(** X7: before the first [update], [encode], its backward and [decode]
    all raise, whatever the construction arguments and the input: there is
    no routing assignment and no kernel to use. *)
Theorem no_dispatch_before_update is_hip e c m dt x g :
  is_ok (encode (__init__ is_hip e c m dt) x) = false /\
  encode_backward (__init__ is_hip e c m dt) x g = Raise AttributeError /\
  decode (__init__ is_hip e c m dt) x = Raise AttributeError.
Proof.
  repeat split.
  unfold encode, GatingEncoder_forward. cbn.
  destruct (torch_zeros _ _); reflexivity.
Qed.

(** ** Fewer location or gate tensors than index tensors *)

Lemma for_each_raise_at {S} (f : S -> nat -> outcome S) (s : S) l1 a l2 e :
  (forall s i, i ∈ l1 -> exists s', f s i = Ok s') ->
  (forall s, f s a = Raise e) ->
  for_each f s (l1 ++ a :: l2) = Raise e.
Proof.
  revert s. induction l1 as [|i l1 IH]; intros s Hok Hraise; cbn.
  - rewrite Hraise. reflexivity.
  - destruct (Hok s i) as [s' Hs']; [set_solver|].
    rewrite Hs'. cbn. apply IH; [|exact Hraise].
    intros s0 i0 Hi0. apply Hok. set_solver.
Qed.

Lemma seq_split_at n k :
  (n < k)%nat -> seq 0 k = seq 0 n ++ n :: seq (S n) (k - S n).
Proof.
  intros H. replace k with (n + S (k - S n))%nat at 1 by lia.
  rewrite seq_app. reflexivity.
Qed.

Lemma lopsided_installed : installed lopsided.
Proof.
  exact (installed_by_update (__init__ false 2 1 1 float32) []
           [[0]; [1]] [[0]] [[1]] None lopsided
           (update (__init__ false 2 1 1 float32) [[0]; [1]] [[0]] [[1]] None []).2
           (reachable_init false 2 1 1 float32) eq_refl).
Qed.

(** X8: [update] does not compare the numbers of index, location and gate
    tensors; a shortfall shows only later. On a state installed by
    [update], [encode] raises IndexError when there are fewer location
    tensors than index tensors, and [decode] raises IndexError when there
    are fewer location tensors or fewer gate tensors than index tensors. *)
Theorem missing_tensors_raise_index_error self x y :
  installed self -> dims_ok self ->
  ((length (default [] (locations_ self)) < choices self)%nat ->
     encode self x = Raise IndexError) /\
  ((length (default [] (locations_ self)) < choices self)%nat \/
   (length (default [] (gates_ self)) < choices self)%nat ->
     decode self y = Raise IndexError).
Proof.
  intros Hinst [Hrows Hcols].
  destruct (installed_kernels _ Hinst) as (Hs & Hfw & Hbd & Hon & HK).
  destruct (installed_state _ Hinst) as (idx & loc & g & first & Hi & Hl & Hg & _).
  unfold choices. rewrite Hi, Hl, Hg. cbn [default]. split.
  - intros Hshort. cbn in Hshort. unfold encode, GatingEncoder_forward, torch_zeros.
    destruct (Z.ltb_spec (num_global_experts self * capacity self) 0); [lia|].
    destruct (Z.ltb_spec (model_dim self) 0); [lia|].
    cbn [orb mbind outcome_bind]. rewrite Hi. cbn [attr mbind outcome_bind].
    rewrite (seq_split_at (length loc) (length idx)) by exact Hshort.
    apply for_each_raise_at.
    + intros buf i Hin. apply elem_of_seq in Hin.
      destruct (lookup_lt_is_Some_2 idx i) as [ii Hii]; [lia|].
      destruct (lookup_lt_is_Some_2 loc i) as [li Hli]; [lia|].
      rewrite (encode_step_ok _ _ _ _ _ _ _ _ _ _ Hfw Hon Hi Hl Hii Hli). eauto.
    + intros buf. unfold encode_step, item.
      rewrite Hfw, Hon, Hi, Hl. cbn [attr mbind outcome_bind].
      destruct (lookup_lt_is_Some_2 idx (length loc)) as [ii Hii]; [lia|].
      rewrite Hii. cbn [mbind outcome_bind].
      rewrite (proj2 (lookup_ge_None loc (length loc))) by lia. reflexivity.
  - intros Hshort. cbn in Hshort. unfold decode, GatingDecoder_forward.
    rewrite Hg, Hi. cbn [attr mbind outcome_bind].
    assert (Hmin : (Nat.min (length loc) (length g) < length idx)%nat) by lia.
    rewrite (seq_split_at _ _ Hmin).
    assert (Hw : torch_empty_width (expected_sample_size self) (model_dim self)
                 = Ok (Z.to_nat (model_dim self))).
    { unfold torch_empty_width.
      destruct (Z.ltb_spec (expected_sample_size self) 0); [lia|].
      destruct (Z.ltb_spec (model_dim self) 0); [lia|]. reflexivity. }
    match goal with
    | |- for_each ?f None _ ≫= _ = _ =>
      rewrite (for_each_raise_at f None _ _ _ IndexError); [reflexivity| |]
    end.
    + intros acc i Hin. apply elem_of_seq in Hin.
      destruct (lookup_lt_is_Some_2 idx i) as [ii Hii]; [lia|].
      destruct (lookup_lt_is_Some_2 loc i) as [li Hli]; [lia|].
      destruct (lookup_lt_is_Some_2 g i) as [gi Hgi]; [lia|].
      unfold decode_term, item. rewrite Hw, Hbd, Hi, Hl. cbn [attr mbind outcome_bind].
      rewrite Hgi, Hii, Hli. cbn [mbind outcome_bind]. eauto.
    + intros acc. unfold decode_term, item.
      rewrite Hw, Hbd, Hi, Hl. cbn [attr mbind outcome_bind].
      destruct (g !! Nat.min (length loc) (length g)) as [gi|] eqn:Hgi;
        cbn [mbind outcome_bind]; [|reflexivity].
      destruct (lookup_lt_is_Some_2 idx (Nat.min (length loc) (length g)))
        as [ii Hii]; [lia|].
      rewrite Hii. cbn [mbind outcome_bind].
      apply lookup_lt_Some in Hgi.
      rewrite (proj2 (lookup_ge_None loc (Nat.min (length loc) (length g)))) by lia.
      reflexivity.
Qed.

Lemma missing_tensors_raise_index_error_witness :
  encode lopsided [[5]] = Raise IndexError.
Proof.
  refine (proj1 (missing_tensors_raise_index_error lopsided [[5]] [[5]; [7]]
                   lopsided_installed _) _).
  - split; vm_compute; discriminate.
  - vm_compute; lia.
Defined.

(** ** Dispatch followed by combine *)

Lemma sumZ_single (f : nat -> Z) n t :
  (t < n)%nat ->
  (forall t', (t' < n)%nat -> t' <> t -> f t' = 0) ->
  sumZ (map f (seq 0 n)) = f t.
Proof.
  induction n as [|n IH]; intros Ht Hz; [lia|].
  rewrite sumZ_seq_S.
  destruct (decide (t = n)) as [->|Hne].
  - rewrite sumZ_map_zero; [lia|].
    intros i Hi. apply elem_of_seq in Hi. apply Hz; lia.
  - rewrite IH, (Hz n) by (auto; intros; try apply Hz; lia). lia.
Qed.

Lemma encode_rows self x buf :
  installed self -> complete self ->
  rows_of_width (Z.to_nat (model_dim self)) x ->
  encode self x = Ok buf ->
  rows_of_width (Z.to_nat (model_dim self)) buf.
Proof.
  intros Hinst Hcomp Hx.
  destruct (installed_kernels _ Hinst) as (Hs & Hfw & _ & Hon & HK).
  destruct (installed_state _ Hinst) as (idx & loc & g & first & Hi & Hl & _).
  unfold encode, GatingEncoder_forward, torch_zeros.
  destruct (_ || _); [discriminate|]. cbn [mbind outcome_bind].
  rewrite Hi. cbn [attr mbind outcome_bind].
  destruct (for_each_seq (encode_step self x)
    (fun _ b => rows_of_width (Z.to_nat (model_dim self)) b)
    0%nat (length idx)
    (replicate (Z.to_nat (num_global_experts self * capacity self))
               (vzeros (Z.to_nat (model_dim self))))) as (buf' & Hbuf & Hrows).
  - apply Forall_replicate. apply length_replicate.
  - intros i b Hi' Hw.
    destruct (installed_choice self i Hinst Hcomp) as
      (idx' & loc' & g' & ii & li & gi & Hi2 & Hl2 & _ & Hii & Hli & _).
    { unfold choices. rewrite Hi. cbn. lia. }
    rewrite (encode_step_ok _ _ _ _ _ _ _ _ _ _ Hfw Hon Hi2 Hl2 Hii Hli).
    eexists. split; [reflexivity|].
    edestruct launch_forward_cells as (_ & Hw' & _); [exact Hw|exact Hx|exact Hw'].
  - rewrite Hbuf. intros [= <-]. exact Hrows.
Qed.

(** X9: with the kernels as the specification describes them, dispatch
    followed by combine gives every token back, scaled by its gate. On a
    state installed by [update] with a single routing choice, for a token
    [t] placed within the capacity in a slot that no other token shares,
    element [j] of [decode (encode x)] at [t] is [gates[0][t]] times
    element [j] of [x] at [t]. *)
Theorem top1_round_trip self x t j e s g :
  installed self -> complete self -> dims_ok self ->
  choices self = 1%nat ->
  rows_of_width (Z.to_nat (model_dim self)) x ->
  (t < samples self)%nat ->
  index_at self 0 t = Some e -> location_at self 0 t = Some s ->
  gate_at self 0 t = Some g ->
  0 <= e < num_global_experts self -> 0 <= s < capacity self ->
  (forall t', (t' < samples self)%nat -> t' <> t ->
     placed self 0 t' (Z.to_nat (slot_row (capacity self) e s)) = false) ->
  exists buf out,
    encode self x = Ok buf /\ decode self buf = Ok out /\
    cell out t j = g * cell x t j.
Proof.
  intros Hinst Hcomp Hdims HK Hx Ht He Hs Hg Hein Hsin Hinj.
  destruct (encode_cells self x Hinst Hcomp Hdims Hx) as (buf & Hbuf & Hlen & Hcell).
  pose proof (encode_rows self x buf Hinst Hcomp Hx Hbuf) as Hrows.
  destruct (decode_cells self buf Hinst Hcomp (proj2 Hdims) Hrows)
    as (out & Hout & _ & Hocell).
  exists buf, out. split; [exact Hbuf|]. split; [exact Hout|].
  rewrite Hocell by exact Ht. unfold combined_cell. rewrite HK.
  cbn [seq map]. rewrite sumZ_cons. change (sumZ []) with 0.
  unfold gather_term. rewrite Hg, He, Hs.
  destruct (Z.ltb_spec s (capacity self)); [|lia].
  assert (Hslot : 0 <= slot_row (capacity self) e s
                  < num_global_experts self * capacity self).
  { unfold slot_row. nia. }
  unfold zcell, zlookup.
  destruct (Z.ltb_spec (slot_row (capacity self) e s) 0); [lia|].
  fold (cell buf (Z.to_nat (slot_row (capacity self) e s)) j).
  rewrite Hcell by lia. unfold scattered_cell. rewrite HK.
  cbn [seq map]. rewrite sumZ_cons. change (sumZ []) with 0.
  rewrite (sumZ_single _ _ t Ht).
  - unfold placed. rewrite He, Hs.
    destruct (Z.ltb_spec s (capacity self)); [|lia].
    rewrite Z2Nat.id, Z.eqb_refl by lia. cbn. lia.
  - intros t' Ht' Hne. rewrite Hinj by assumption. reflexivity.
Qed.

Lemma top1_installed : installed top1.
Proof.
  exact (installed_by_update (__init__ false 2 1 2 float32) []
           [[1; 0]] [[0; 0]] [[3; 4]] None top1
           (update (__init__ false 2 1 2 float32) [[1; 0]] [[0; 0]] [[3; 4]] None []).2
           (reachable_init false 2 1 2 float32) eq_refl).
Qed.

Lemma top1_round_trip_witness :
  exists buf out,
    encode top1 [[1; 2]; [3; 4]] = Ok buf /\ decode top1 buf = Ok out /\
    cell out 0 1 = 3 * cell [[1; 2]; [3; 4]] 0 1.
Proof.
  refine (top1_round_trip top1 [[1; 2]; [3; 4]] 0%nat 1%nat 1 0 3
            top1_installed _ _ eq_refl _ _ eq_refl eq_refl eq_refl _ _ _).
  - split; vm_compute; lia.
  - split; vm_compute; discriminate.
  - repeat constructor.
  - vm_compute; lia.
  - split; vm_compute; [discriminate|reflexivity].
  - split; vm_compute; [discriminate|reflexivity].
  - intros t' Ht' Hne. destruct t' as [|[|t']]; [congruence|reflexivity|].
    vm_compute in Ht'. lia.
Defined.

(** ** The gradient of [encode] *)

Lemma sumZ_mul_r (f : nat -> Z) c l :
  sumZ (map f l) * c = sumZ (map (fun k => f k * c) l).
Proof.
  induction l as [|a l IH]; [reflexivity|].
  cbn [map]. rewrite !sumZ_cons, <- IH. lia.
Qed.

Lemma sumZ_mul_l (f : nat -> Z) c l :
  c * sumZ (map f l) = sumZ (map (fun k => c * f k) l).
Proof.
  induction l as [|a l IH]; [cbn; lia|].
  cbn [map]. rewrite !sumZ_cons, <- IH. lia.
Qed.

(** Summing a placed token's value against the rows of [grad] picks the
    row of its slot: the same number the inverse gather reads. *)
Lemma placed_picks_slot self grad i t j X :
  sumZ (map (fun r => (if placed self i t r then X else 0) * cell grad r j)
            (seq 0 (length grad)))
  = X * gather_term self grad t j i (Some 1).
Proof.
  unfold placed, gather_term.
  destruct (index_at self i t) as [e|];
    [|rewrite sumZ_map_zero by (intros; lia); lia].
  destruct (location_at self i t) as [s|];
    [|rewrite sumZ_map_zero by (intros; lia); lia].
  destruct (Z.ltb_spec s (capacity self)); cbn [andb];
    [|rewrite sumZ_map_zero by (intros; lia); lia].
  set (slot := slot_row (capacity self) e s).
  unfold zcell, zlookup.
  destruct (Z.ltb_spec slot 0) as [Hneg|Hpos].
  { rewrite sumZ_map_zero; [lia|]. intros r _.
    destruct (Z.eqb_spec slot (Z.of_nat r)); lia. }
  destruct (decide (Z.to_nat slot < length grad)%nat) as [Hin|Hout].
  - rewrite (sumZ_single _ _ (Z.to_nat slot) Hin).
    + rewrite Z2Nat.id, Z.eqb_refl by lia. unfold cell. lia.
    + intros r _ Hne. destruct (Z.eqb_spec slot (Z.of_nat r)); lia.
  - rewrite (proj2 (lookup_ge_None grad (Z.to_nat slot))) by lia.
    rewrite sumZ_map_zero; [lia|]. intros r Hr. apply elem_of_seq in Hr.
    destruct (Z.eqb_spec slot (Z.of_nat r)); lia.
Qed.

(** X19: with the kernels as the specification describes them, the
    backward of [encode] is the transpose of its forward. On a state
    installed by [update], for token features [x] and a gradient [grad] of
    the dispatch buffer's shape, pairing the buffer [encode x] with [grad]
    element by element gives the same number as pairing [x] with the
    gradient that [encode]'s backward returns for [grad]. *)
Theorem encode_backward_is_transpose self x grad :
  installed self -> complete self -> dims_ok self ->
  rows_of_width (Z.to_nat (model_dim self)) x ->
  rows_of_width (columns x) grad ->
  length grad = Z.to_nat (num_global_experts self * capacity self) ->
  exists buf total,
    encode self x = Ok buf /\
    encode_backward self x grad = Ok (Some total) /\
    sumZ (map (fun r =>
            sumZ (map (fun j => cell buf r j * cell grad r j)
                      (seq 0 (Z.to_nat (model_dim self)))))
          (seq 0 (length buf)))
    = sumZ (map (fun t =>
              sumZ (map (fun j => cell x t j * cell total t j)
                        (seq 0 (Z.to_nat (model_dim self)))))
            (seq 0 (samples self))).
Proof.
  intros Hinst Hcomp Hdims Hx Hgrad Hlen.
  destruct (encode_cells self x Hinst Hcomp Hdims Hx) as (buf & Hbuf & Hbl & Hcell).
  destruct (encode_backward_cells self x grad Hinst Hcomp Hgrad)
    as (total & Htot & _ & Hgc).
  exists buf, total. split; [exact Hbuf|]. split; [exact Htot|].
  set (w := Z.to_nat (model_dim self)).
  set (n := samples self) in *.
  set (K := choices self).
  set (f := fun r j i t =>
              (if placed self i t r then cell x t j else 0) * cell grad r j).
  transitivity
    (sumZ (map (fun j => sumZ (map (fun i => sumZ (map (fun t =>
       sumZ (map (fun r => f r j i t) (seq 0 (length buf))))
       (seq 0 n))) (seq 0 K))) (seq 0 w))).
  - transitivity
      (sumZ (map (fun r => sumZ (map (fun j => sumZ (map (fun i =>
         sumZ (map (fun t => f r j i t) (seq 0 n))) (seq 0 K))) (seq 0 w)))
         (seq 0 (length buf)))).
    { apply sumZ_map_ext. intros r Hr. apply elem_of_seq in Hr.
      apply sumZ_map_ext. intros j _.
      rewrite Hcell by lia. unfold scattered_cell. fold K n.
      rewrite sumZ_mul_r. apply sumZ_map_ext. intros i _.
      rewrite sumZ_mul_r. reflexivity. }
    rewrite (sumZ_swap (fun r j => sumZ (map (fun i =>
               sumZ (map (fun t => f r j i t) (seq 0 n))) (seq 0 K)))).
    apply sumZ_map_ext. intros j _.
    rewrite (sumZ_swap (fun r i => sumZ (map (fun t => f r j i t) (seq 0 n)))).
    apply sumZ_map_ext. intros i _.
    apply (sumZ_swap (fun r t => f r j i t)).
  - transitivity
      (sumZ (map (fun t => sumZ (map (fun j => sumZ (map (fun i =>
         sumZ (map (fun r => f r j i t) (seq 0 (length buf))))
         (seq 0 K))) (seq 0 w))) (seq 0 n))).
    { rewrite (sumZ_swap (fun t j => sumZ (map (fun i =>
                 sumZ (map (fun r => f r j i t) (seq 0 (length buf))))
                 (seq 0 K)))).
      apply sumZ_map_ext. intros j _.
      symmetry.
      apply (sumZ_swap (fun t i =>
               sumZ (map (fun r => f r j i t) (seq 0 (length buf))))). }
    apply sumZ_map_ext. intros t Ht. apply elem_of_seq in Ht.
    apply sumZ_map_ext. intros j _.
    rewrite Hgc by lia. unfold encode_grad_cell. fold K.
    rewrite sumZ_mul_l. apply sumZ_map_ext. intros i _.
    unfold f. rewrite Hbl, <- Hlen. apply placed_picks_slot.
Qed.

Lemma encode_backward_is_transpose_witness :
  exists buf total,
    encode top1 [[1; 2]; [3; 4]] = Ok buf /\
    encode_backward top1 [[1; 2]; [3; 4]] [[5; 6]; [7; 8]] = Ok (Some total) /\
    sumZ (map (fun r =>
            sumZ (map (fun j => cell buf r j * cell [[5; 6]; [7; 8]] r j)
                      (seq 0 (Z.to_nat (model_dim top1)))))
          (seq 0 (length buf)))
    = sumZ (map (fun t =>
              sumZ (map (fun j => cell [[1; 2]; [3; 4]] t j * cell total t j)
                        (seq 0 (Z.to_nat (model_dim top1)))))
            (seq 0 (samples top1))).
Proof.
  refine (encode_backward_is_transpose top1 [[1; 2]; [3; 4]] [[5; 6]; [7; 8]]
            top1_installed _ _ _ _ eq_refl).
  - split; vm_compute; lia.
  - split; vm_compute; discriminate.
  - repeat constructor.
  - repeat constructor.
Defined.

(** ** Repeating a call *)

Lemma update_installs self indices locations gates capacity_arg jit self' jit' :
  update self indices locations gates capacity_arg jit = (Ok tt, self', jit') ->
  exists first,
    map (map to_int32) indices !! 0%nat = Some first /\
    indices_ self' = Some (map (map to_int32) indices) /\
    locations_ self' = Some (map (map to_int32) locations) /\
    gates_ self' = Some gates /\
    expected_sample_size self' = Z.of_nat (length first) /\
    capacity self' = capacity_or capacity_arg (capacity self).
Proof.
  unfold update; cbn.
  destruct (map (map to_int32) indices !! 0%nat) as [first|]; cbn; [|discriminate].
  intros H. exists first. split; [reflexivity|]. revert H.
  set (s := Z.of_nat (length first)).
  set (c := capacity_or capacity_arg (capacity self)).
  destruct (negb (s =? expected_sample_size self) || negb (c =? capacity self)) eqn:Hchg.
  - destruct (kernel_pool self !! (s, c)) as [[[[f b] g] o]|]; cbn;
      intros [= <- <-]; cbn; repeat split; reflexivity.
  - apply orb_false_elim in Hchg as [Hs Hc].
    apply negb_false_iff, Z.eqb_eq in Hs, Hc.
    intros [= <- <-]. cbn. repeat split; congruence.
Qed.

Lemma capacity_or_again capacity_arg own :
  capacity_or capacity_arg (capacity_or capacity_arg own)
  = capacity_or capacity_arg own.
Proof.
  unfold capacity_or. destruct capacity_arg as [c|]; [|reflexivity].
  destruct (Z.eqb_spec c 0) as [->|Hne]; [reflexivity|].
  destruct (Z.eqb_spec c 0); [contradiction|reflexivity].
Qed.

(** X20: [update] is idempotent. On any dispatcher state, when an
    [update] returns, the same call made again returns too and changes
    nothing: the state and the build log stay exactly as the first call
    left them. *)
Theorem update_is_idempotent self indices locations gates capacity_arg jit self' jit' :
  update self indices locations gates capacity_arg jit = (Ok tt, self', jit') ->
  update self' indices locations gates capacity_arg jit' = (Ok tt, self', jit').
Proof.
  intros Hu.
  destruct (update_installs _ _ _ _ _ _ _ _ Hu)
    as (first & H0 & Hi & Hl & Hg & Hs & Hc).
  rewrite (update_same_shape self' indices locations gates capacity_arg jit' first H0).
  - f_equal. f_equal. destruct self'. cbn in *. unfold set_routing. cbn.
    congruence.
  - congruence.
  - rewrite Hc. apply capacity_or_again.
Qed.

Lemma update_is_idempotent_witness :
  update Examples.top2 [[0]; [1]] [[0]; [0]] [[1]; [1]] None Examples.top2_jit
  = (Ok tt, Examples.top2, Examples.top2_jit).
Proof.
  exact (update_is_idempotent (__init__ false 2 1 1 float32)
           [[0]; [1]] [[0]; [0]] [[1]; [1]] None [] Examples.top2 Examples.top2_jit
           eq_refl).
Defined.

End DispatchMore.

(** * Further properties of the collectives *)

Module CommunicateMore.
Import Communicate SumFacts CommunicateFacts CommRuns.

Local Open Scope nat_scope.

(** ** The first-call block of [AllToAll.forward] *)

Lemma land_1_odd a : Z.land a 1 = (if Z.odd a then 1 else 0)%Z.
Proof.
  change 1%Z with (Z.ones 1) at 1. rewrite Z.land_ones by lia.
  rewrite Zmod_odd. reflexivity.
Qed.

Lemma odd_lxor_3 a : Z.odd (Z.lxor a 3) = negb (Z.odd a).
Proof.
  rewrite <- !Z.bit0_odd, Z.lxor_spec. cbn.
  destruct (Z.testbit a 0); reflexivity.
Qed.

Lemma prepare_prepared has grp p : prepared (prepare has grp p) = true.
Proof.
  unfold prepare. destruct (prepared p) eqn:Hp; [exact Hp|].
  destruct (negb has && _); destruct (_ && _); unfold emit_if, emit;
    try destruct (get_world_rank grp =? 0); reflexivity.
Qed.

Lemma prepare_again has grp p : prepared p = true -> prepare has grp p = p.
Proof. intros Hp. unfold prepare. rewrite Hp. reflexivity. Qed.

Lemma prepare_trace has grp p :
  exists evs, trace (prepare has grp p) = trace p ++ evs /\
    Forall (fun e => is_negotiation e = true) evs.
Proof.
  unfold prepare. destruct (prepared p).
  { exists []. rewrite app_nil_r. auto. }
  destruct (negb has && _); cbn [a2a_type prepared trace].
  - destruct (_ && _).
    + unfold emit_if, emit. destruct (get_world_rank grp =? 0); cbn [trace];
        rewrite <- ?app_assoc; eexists; (split; [reflexivity|]);
        repeat constructor.
    + exists []. rewrite app_nil_r. auto.
  - destruct (_ && _).
    + unfold emit_if, emit. destruct (get_world_rank grp =? 0); cbn [trace];
        rewrite <- ?app_assoc; eexists; (split; [reflexivity|]);
        repeat constructor.
    + exists []. rewrite app_nil_r. auto.
Qed.

(** The events of the exchange proper, after the first-call block. *)
Lemma forward_after_prepare has grp xs p :
  let q := prepare has grp p in
  exists evs,
    trace (AllToAll_forward has grp xs p).2 = trace q ++ evs /\
    prepared (AllToAll_forward has grp xs p).2 = true /\
    a2a_type (AllToAll_forward has grp xs p).2 = a2a_type q /\
    Forall (fun e => is_negotiation e = false) evs /\
    (Z.land (a2a_type q) 1 <> 1%Z -> Forall (fun e => e <> AllToAllSingle) evs).
Proof.
  intros q. pose proof (prepare_prepared has grp p) as Hq. fold q in Hq.
  unfold AllToAll_forward. fold q.
  destruct (_ || _).
  { exists []. cbn. rewrite app_nil_r. repeat split; auto. }
  destruct (Z.land (a2a_type q) 8 =? 8)%Z; cbn [emit_if];
    cbn [emit a2a_type];
    destruct (Z.eqb_spec (Z.land (a2a_type q) 1) 1) as [H1|H1].
  all: try (destruct (all_to_all_single grp xs));
       try (destruct (external_all2all grp xs)).
  all: unfold emit_if, emit; cbn [andb]; try destruct (get_world_rank grp =? 0);
       cbn [fst snd trace prepared a2a_type]; rewrite <- ?app_assoc.
  all: eexists; (split; [reflexivity|]).
  all: (split; [exact Hq|]); (split; [reflexivity|]).
  all: cbn [app].
  all: (split; [each_event|]); intros Hne; try contradiction; each_event.
Qed.

Lemma new_events_app p p' evs :
  trace p' = trace p ++ evs -> new_events p p' = evs.
Proof. intros H. unfold new_events. rewrite H. apply drop_app_length. Qed.

(** X10: a process whose [torch.distributed] has no [all_to_all_single]
    never calls it. Starting before the first call, or from any state in
    which the standard backend is switched off, [AllToAll.forward] issues
    no [all_to_all_single] and leaves the process in such a state again:
    the first call has switched a requested standard backend off. *)
Theorem missing_primitive_is_never_called grp xs p :
  prepared p = false \/ Z.odd (a2a_type p) = false ->
  let p' := (AllToAll_forward false grp xs p).2 in
  (AllToAllSingle ∉ new_events p p') /\
  prepared p' = true /\ Z.odd (a2a_type p') = false.
Proof.
  intros Hsafe p'.
  assert (Hq : Z.odd (a2a_type (prepare false grp p)) = false).
  { unfold prepare. destruct (prepared p) eqn:Hp.
    - destruct Hsafe as [?|Ho]; [discriminate|exact Ho].
    - cbn [negb andb a2a_type prepared trace]. rewrite land_1_odd.
      destruct (Z.odd (a2a_type p)) eqn:Ho; cbn [Z.eqb Pos.eqb a2a_type].
      + assert (Hx : Z.odd (Z.lxor (a2a_type p) 3) = false)
          by (rewrite odd_lxor_3, Ho; reflexivity).
        destruct (_ && _); unfold emit_if, emit;
          try destruct (get_world_rank grp =? 0); exact Hx.
      + destruct (_ && _); unfold emit_if, emit;
          try destruct (get_world_rank grp =? 0); exact Ho. }
  destruct (prepare_trace false grp p) as (evs1 & Ht1 & Hneg).
  destruct (forward_after_prepare false grp xs p) as (evs2 & Ht2 & Hprep & Ha & _ & Hno).
  fold p' in Ht2, Hprep, Ha.
  split; [|split].
  - rewrite (new_events_app p p' (evs1 ++ evs2))
      by (rewrite Ht2, Ht1, app_assoc; reflexivity).
    rewrite elem_of_app. intros [Hin|Hin].
    + rewrite Forall_forall in Hneg. specialize (Hneg _ Hin). discriminate Hneg.
    + assert (Hodd : Z.land (a2a_type (prepare false grp p)) 1 <> 1%Z)
        by (rewrite land_1_odd, Hq; discriminate).
      specialize (Hno Hodd). rewrite Forall_forall in Hno.
      exact (Hno _ Hin eq_refl).
  - exact Hprep.
  - rewrite Ha. exact Hq.
Qed.

Lemma missing_primitive_is_never_called_witness :
  AllToAllSingle ∉ new_events Examples.fresh
    (AllToAll_forward false (Examples.pair 0) Examples.ramp Examples.fresh).2.
Proof.
  exact (proj1 (missing_primitive_is_never_called (Examples.pair 0) Examples.ramp
                  Examples.fresh (or_introl eq_refl))).
Defined.

(** X11: the negotiation of the external backend happens in the first
    call or never. Every [AllToAll.forward] leaves the process prepared;
    on a prepared process the call keeps [a2a_type] and issues no setup
    and no broadcast, whatever the group, also when the first call was on
    a group of one and skipped the negotiation. *)
Theorem negotiation_is_first_call_only has grp xs p :
  prepared (AllToAll_forward has grp xs p).2 = true /\
  (prepared p = true ->
     a2a_type (AllToAll_forward has grp xs p).2 = a2a_type p /\
     Forall (fun e => is_negotiation e = false)
            (new_events p (AllToAll_forward has grp xs p).2)).
Proof.
  destruct (forward_after_prepare has grp xs p) as (evs & Ht & Hprep & Ha & Hneg & _).
  split; [exact Hprep|].
  intros Hp. rewrite (prepare_again has grp p Hp) in Ht, Ha.
  split; [exact Ha|].
  rewrite (new_events_app _ _ _ Ht). exact Hneg.
Qed.

Lemma negotiation_is_first_call_only_witness :
  a2a_type (AllToAll_forward true (Examples.pair 0) Examples.ramp
              (AllToAll_forward true Examples.alone Examples.ramp
                 (mk_process false 2 [])).2).2 = 2%Z.
Proof.
  exact (proj1 (proj2 (negotiation_is_first_call_only true (Examples.pair 0)
    Examples.ramp
    (AllToAll_forward true Examples.alone Examples.ramp (mk_process false 2 [])).2)
    eq_refl)).
Defined.

(** ** The timing instrumentation *)

Lemma testbit_8 n : Z.testbit 8 n = (n =? 3)%Z.
Proof.
  destruct (Z.eqb_spec n 3) as [->|Hne]; [reflexivity|].
  destruct n as [|n|n]; try reflexivity.
  destruct n as [n|n|]; try reflexivity;
    destruct n as [n|n|]; try reflexivity; try congruence;
    destruct n; reflexivity.
Qed.

Lemma land_lor_8_low a m :
  Z.land 8 m = 0%Z -> Z.land (Z.lor a 8) m = Z.land a m.
Proof. intros H. rewrite Z.land_lor_distr_l, H, Z.lor_0_r. reflexivity. Qed.

Lemma lxor_lor_8 a : Z.lxor (Z.lor a 8) 3 = Z.lor (Z.lxor a 3) 8.
Proof.
  apply Z.bits_inj'. intros n Hn.
  rewrite Z.lxor_spec, !Z.lor_spec, Z.lxor_spec, testbit_8.
  destruct (Z.eqb_spec n 3) as [->|Hne].
  - cbn. rewrite !orb_true_r. reflexivity.
  - rewrite !orb_false_r. reflexivity.
Qed.

Lemma land_lor_8_8 a : Z.land (Z.lor a 8) 8 = 8%Z.
Proof.
  rewrite Z.land_lor_distr_l. change (Z.land 8 8) with 8%Z.
  apply Z.bits_inj'. intros n Hn.
  rewrite Z.lor_spec, Z.land_spec, testbit_8.
  destruct (Z.testbit a n), (n =? 3)%Z; reflexivity.
Qed.

Lemma lor_8_nonzero a : Z.lor a 8 <> 0%Z.
Proof. intros H. apply Z.lor_eq_0_iff in H as [_ H]. discriminate H. Qed.

Lemma prepare_with_timing has grp p :
  prepare has grp (with_timing p) = with_timing (prepare has grp p).
Proof.
  destruct p as [pr t tr].
  unfold prepare, with_timing. cbn [prepared a2a_type trace].
  destruct pr; [reflexivity|].
  cbn [prepared a2a_type trace].
  rewrite (land_lor_8_low _ 1) by reflexivity.
  destruct (negb has && (Z.land t 1 =? 1)%Z); cbn [prepared a2a_type trace].
  - rewrite lxor_lor_8, (land_lor_8_low _ 2) by reflexivity.
    destruct (_ && _); [|reflexivity].
    unfold emit_if, emit. destruct (get_world_rank grp =? 0); reflexivity.
  - rewrite (land_lor_8_low _ 2) by reflexivity.
    destruct (_ && _); [|reflexivity].
    unfold emit_if, emit. destruct (get_world_rank grp =? 0); reflexivity.
Qed.

Lemma without_timing_app l1 l2 :
  without_timing (l1 ++ l2) = without_timing l1 ++ without_timing l2.
Proof. unfold without_timing. apply list.filter_app. Qed.

(** X12: switching the timing instrumentation on changes no result.
    Unless the backend in effect after the first-call block is the
    pass-through ([a2a_type = 0], which the timing bit would turn into the
    external exchange), [AllToAll.forward] with bit 8 of [a2a_type] set
    returns the same outcome and issues the same events apart from the
    synchronizations and the log line. *)
Theorem timing_changes_no_result has grp xs p :
  a2a_type (prepare has grp p) <> 0%Z ->
  (AllToAll_forward has grp xs (with_timing p)).1.1
    = (AllToAll_forward has grp xs p).1.1 /\
  without_timing (trace (AllToAll_forward has grp xs (with_timing p)).2)
    = without_timing (trace (AllToAll_forward has grp xs p).2).
Proof.
  intros Hne. unfold AllToAll_forward.
  rewrite prepare_with_timing.
  destruct (prepare has grp p) as [qp t tr]. cbn [a2a_type] in Hne.
  unfold with_timing. cbn [a2a_world_size a2a_type prepared trace].
  destruct (get_world_size grp <=? 1); [split; reflexivity|].
  destruct (Z.eqb_spec (Z.lor t 8) 0) as [H0|_];
    [exfalso; exact (lor_8_nonzero _ H0)|].
  destruct (Z.eqb_spec t 0) as [H0|_]; [contradiction|].
  cbn [orb]. rewrite land_lor_8_8. change (8 =? 8)%Z with true.
  unfold emit_if, emit. cbn [a2a_type prepared trace andb].
  rewrite (land_lor_8_low _ 1) by reflexivity.
  destruct (Z.land t 8 =? 8)%Z; cbn [a2a_type prepared trace andb];
    destruct (Z.land t 1 =? 1)%Z;
    cbn [a2a_type prepared trace andb];
    try (destruct (all_to_all_single grp xs));
    try (destruct (external_all2all grp xs));
    destruct (get_world_rank grp =? 0);
    cbn [a2a_type prepared trace andb fst snd];
    (split; [reflexivity|]);
    rewrite ?without_timing_app;
    change (without_timing [CudaSynchronize]) with (@nil event);
    change (without_timing [LogInfo]) with (@nil event);
    rewrite ?app_nil_r; reflexivity.
Qed.

Lemma timing_changes_no_result_witness :
  (AllToAll_forward true (Examples.pair 0) Examples.ramp
     (with_timing Examples.fresh)).1.1
  = (AllToAll_forward true (Examples.pair 0) Examples.ramp Examples.fresh).1.1.
Proof.
  refine (proj1 (timing_changes_no_result true (Examples.pair 0) Examples.ramp
                   Examples.fresh _)).
  vm_compute. discriminate.
Defined.

(** ** Pieces of a concatenation *)

Lemma concat_block (A : nat -> list Z) c p j :
  j < p -> (forall i, i < p -> length (A i) = c) ->
  take c (drop (j * c) (concat (map A (seq 0 p)))) = A j.
Proof.
  induction p as [|p IH]; intros Hj Hlen; [lia|].
  rewrite seq_S, map_app, concat_app. cbn [map concat plus]. rewrite app_nil_r.
  assert (HG : length (concat (map A (seq 0 p))) = p * c)
    by (apply length_concat_blocks; intros; apply Hlen; lia).
  destruct (decide (j = p)) as [->|Hne].
  - rewrite drop_app_length' by congruence.
    apply take_ge. rewrite Hlen by lia. lia.
  - rewrite drop_app_le by nia.
    rewrite take_app_le by (rewrite length_drop; nia).
    apply IH; [lia|]. intros; apply Hlen; lia.
Qed.

Lemma blocks_reassemble (l : list Z) c p :
  length l = p * c ->
  concat (map (fun j => take c (drop (j * c) l)) (seq 0 p)) = l.
Proof.
  intros Hlen.
  assert (H : forall k, concat (map (fun j => take c (drop (j * c) l)) (seq 0 k))
                        = take (k * c) l).
  { induction k as [|k IH]; [reflexivity|].
    rewrite seq_S, map_app, concat_app, IH. cbn [map concat plus].
    rewrite app_nil_r, take_take_drop. f_equal. lia. }
  rewrite H. apply take_ge. lia.
Qed.

(** ** The all-to-all applied twice *)

Lemma forward_standard p r k rest ys q :
  1 < p -> r < p ->
  (forall j, j < p -> shape (ys j) = k * p :: rest) ->
  a2a_type q = 1%Z ->
  (AllToAll_forward true (mk_group true p r) ys q).1.1
  = Ok (mk_tensor (k * p :: rest) (exchanged p r ys)).
Proof.
  intros Hp Hr Hys Hq. unfold AllToAll_forward.
  assert (Hprep : a2a_type (prepare true (mk_group true p r) q) = 1%Z).
  { unfold prepare. destruct (prepared q); [exact Hq|].
    cbn [negb andb a2a_type]. rewrite Hq. reflexivity. }
  cbn [a2a_world_size get_world_size initialised size].
  destruct (Nat.leb_spec p 1); [lia|].
  rewrite Hprep. change (1 =? 0)%Z with false.
  change (Z.land 1 8 =? 8)%Z with false. cbn [orb andb emit_if].
  rewrite Hprep. change (Z.land 1 1 =? 1)%Z with true. cbn iota.
  rewrite (all_to_all_single_even p r k rest ys) by (auto; lia).
  reflexivity.
Qed.

(** X13: under a balanced partition the all-to-all is an involution. In a
    group of P > 1 workers with the standard backend, when every member
    passes a well-formed tensor of one shape whose leading dimension is a
    multiple of P, and every member then passes what it received to a
    second all-to-all, every member gets its own tensor back. *)
Theorem all_to_all_twice_is_identity p r k rest xs q q' :
  1 < p -> r < p ->
  (forall j, j < p -> shape (xs j) = k * p :: rest /\ well_formed (xs j)) ->
  a2a_type q = 1%Z -> a2a_type q' = 1%Z ->
  (AllToAll_forward true (mk_group true p r)
     (fun j => value (AllToAll_forward true (mk_group true p j) xs q).1.1) q').1.1
  = Ok (xs r).
Proof.
  intros Hp Hr Hxs Hq Hq'.
  set (ys := fun j => value (AllToAll_forward true (mk_group true p j) xs q).1.1).
  set (c := k * numel_of rest).
  assert (Hys : forall j, j < p ->
            ys j = mk_tensor (k * p :: rest) (exchanged p j xs)).
  { intros j Hj. unfold ys.
    rewrite (forward_standard p j k rest xs q) by (auto; intros; apply Hxs; lia).
    reflexivity. }
  assert (Hblk : forall i j, i < p -> j < p ->
            length (block p j (xs i)) = c /\
            block p j (xs i) = take c (drop (j * c) (data (xs i)))).
  { intros i j Hi Hj. destruct (Hxs i Hi) as [Hs Hw].
    destruct (balanced_sizes p k rest (xs i) Hs Hw) as [Hd Hn].
    apply length_block; assumption. }
  rewrite (forward_standard p r k rest ys q') by
    (auto; intros j Hj; rewrite Hys by exact Hj; reflexivity).
  assert (Hdata : exchanged p r ys = data (xs r)).
  { unfold exchanged.
    rewrite (map_ext_in _ (fun j => take c (drop (j * c) (data (xs r))))).
    - apply blocks_reassemble. destruct (Hxs r Hr) as [Hs Hw].
      apply (balanced_sizes p k rest (xs r) Hs Hw).
    - intros j Hj. apply in_seq in Hj.
      rewrite (block_of_shape p r (ys j) k rest) by
        (try lia; rewrite Hys by lia; reflexivity).
      rewrite Hys by lia. cbn [data]. unfold exchanged. fold c.
      rewrite (concat_block _ c p r Hr) by (intros i Hi; apply Hblk; lia).
      apply Hblk; lia. }
  rewrite Hdata. destruct (Hxs r Hr) as [Hs _].
  destruct (xs r) as [sh d]. cbn in Hs |- *. rewrite Hs. reflexivity.
Qed.

Lemma all_to_all_twice_is_identity_witness :
  (AllToAll_forward true (mk_group true 2 1)
     (fun j => value (AllToAll_forward true (mk_group true 2 j) Examples.ramp
                        Examples.fresh).1.1) Examples.fresh).1.1
  = Ok (Examples.ramp 1).
Proof.
  refine (all_to_all_twice_is_identity 2 1 1 [1] Examples.ramp Examples.fresh
            Examples.fresh _ _ ramp_balanced eq_refl eq_refl).
  - lia.
  - lia.
Defined.

(** ** Contract after Expand *)

Lemma vadd_vscale a v : vadd (vscale a v) v = vscale (a + 1) v.
Proof.
  unfold vadd, vscale. induction v as [|x v IH]; [reflexivity|].
  cbn. rewrite IH. f_equal. lia.
Qed.

Lemma vzeros_vscale v : vzeros (length v) = vscale 0 v.
Proof.
  unfold vzeros, vscale. induction v as [|x v IH]; [reflexivity|].
  cbn. rewrite IH. reflexivity.
Qed.

Lemma vsum_copies m v (l : list nat) :
  length v = m ->
  vsum m (map (fun _ => v) l) = vscale (Z.of_nat (length l)) v.
Proof.
  intros <-. unfold vsum. rewrite vzeros_vscale.
  assert (H : forall a, foldl vadd (vscale a v) (map (fun _ => v) l)
                        = vscale (a + Z.of_nat (length l)) v).
  { induction l as [|x l IH]; intros a.
    - cbn. rewrite Z.add_0_r. reflexivity.
    - cbn [map foldl length]. rewrite vadd_vscale, IH. f_equal. lia. }
  rewrite H. reflexivity.
Qed.

(** X14: Contract after Expand multiplies by the group size. In a group
    of P > 1 workers whose members pass well-formed tensors of one shape,
    when every member feeds the tensor it got from
    [PreAllreduceSum.forward] to [PostAllreduceSum.forward], rank [r] gets
    its own tensor back with every element multiplied by P. *)
Theorem contract_of_expand_scales p r xs q q' n rest :
  1 < p -> r < p ->
  (forall j, j < p -> shape (xs j) = n :: rest /\ well_formed (xs j)) ->
  (PostAllreduceSum_forward (mk_group true p r)
     (fun j => value (PreAllreduceSum_forward (mk_group true p j) xs q).1.1) q').1.1
  = Ok (mk_tensor (n :: rest) (vscale (Z.of_nat p) (data (xs r)))).
Proof.
  intros Hp Hr Hxs.
  set (ys := fun j => value (PreAllreduceSum_forward (mk_group true p j) xs q).1.1).
  assert (Hlen : forall j, j < p -> length (data (xs j)) = n * numel_of rest).
  { intros j Hj. destruct (Hxs j Hj) as [Hs Hw].
    unfold well_formed, numel in Hw. rewrite Hs in Hw. exact Hw. }
  assert (Hys : forall j, j < p ->
            ys j = mk_tensor (n * p :: rest) (gathered p xs)).
  { intros j Hj. unfold ys.
    rewrite (pre_forward_gathers p j xs q n rest) by assumption. reflexivity. }
  rewrite (post_forward_reduces p r ys q' n rest); try assumption.
  - cbn [fst]. f_equal. f_equal.
    rewrite (reduced_shard_shape p r ys n rest) by
      (try lia; rewrite Hys by lia; reflexivity).
    rewrite (map_ext_in _ (fun _ => data (xs r))).
    + rewrite vsum_copies by (apply Hlen; exact Hr).
      rewrite length_seq. reflexivity.
    + intros w Hw. apply in_seq in Hw.
      rewrite (block_of_shape p r (ys w) n rest) by
        (try lia; rewrite Hys by lia; reflexivity).
      rewrite Hys by lia. cbn [data].
      apply gathered_block; assumption.
  - intros j Hj. rewrite Hys by exact Hj. split; [reflexivity|].
    unfold well_formed, numel. cbn [shape data].
    rewrite (gathered_length p xs (n * numel_of rest)) by exact Hlen.
    rewrite numel_cons. lia.
Qed.

Lemma contract_of_expand_scales_witness :
  (PostAllreduceSum_forward (mk_group true 2 1)
     (fun j => value (PreAllreduceSum_forward (mk_group true 2 j) Examples.ramp
                        Examples.fresh).1.1) Examples.fresh).1.1
  = Ok (mk_tensor [2; 1] (vscale (Z.of_nat 2) (data (Examples.ramp 1)))).
Proof.
  refine (contract_of_expand_scales 2 1 Examples.ramp Examples.fresh Examples.fresh
            2 [1] _ _ ramp_shapes).
  - lia.
  - lia.
Defined.

(** ** Backward in a group of one *)

(** X15: in a group of one the backward of each operator, run on the
    context its forward saved, hands the gradient back as it is and adds no
    event to the trace. *)
Theorem backward_of_one_is_identity has grp xs gs p q :
  get_world_size grp = 1 ->
  ((AllToAll_backward has (AllToAll_forward has grp xs p).1.2 gs q).1
     = Ok (gs (rank grp)) /\
   trace (AllToAll_backward has (AllToAll_forward has grp xs p).1.2 gs q).2
     = trace q) /\
  PreAllreduceSum_backward (PreAllreduceSum_forward grp xs p).1.2 gs q
    = (Ok (gs (rank grp)), q) /\
  PostAllreduceSum_backward (PostAllreduceSum_forward grp xs p).1.2 gs q
    = (Ok (gs (rank grp)), q).
Proof.
  intros Hone. split; [|split].
  - unfold AllToAll_backward. rewrite forward_ctx. cbn [a2a_group].
    destruct (group_of_one_is_identity has grp gs q Hone) as [[Hres Htr] _].
    destruct (AllToAll_forward has grp gs q) as [[o c] q'].
    cbn in *. auto.
  - unfold PreAllreduceSum_forward, PreAllreduceSum_backward.
    rewrite Hone. cbn. rewrite Hone. reflexivity.
  - unfold PostAllreduceSum_forward, PostAllreduceSum_backward.
    rewrite Hone. reflexivity.
Qed.

Lemma backward_of_one_is_identity_witness :
  PostAllreduceSum_backward
    (PostAllreduceSum_forward Examples.alone Examples.ramp Examples.fresh).1.2
    Examples.ramp4 Examples.fresh
  = (Ok (Examples.ramp4 (rank Examples.alone)), Examples.fresh).
Proof.
  exact (proj2 (proj2 (backward_of_one_is_identity true Examples.alone Examples.ramp
    Examples.ramp4 Examples.fresh Examples.fresh eq_refl))).
Defined.

(** ** Scalars and gradients that do not split *)

(** X16: a 0-d tensor goes through neither operator in a group of P > 1.
    [PreAllreduceSum.forward] first runs the all-gather and only then
    raises IndexError, on reading [input.shape[0]];
    [PostAllreduceSum.forward] raises RuntimeError in [torch.chunk], before
    any collective. *)
Theorem scalar_is_refused p r xs q :
  1 < p -> r < p ->
  (forall j, j < p -> shape (xs j) = [] /\ well_formed (xs j)) ->
  ((PreAllreduceSum_forward (mk_group true p r) xs q).1.1 = Raise IndexError /\
   (PreAllreduceSum_forward (mk_group true p r) xs q).2 = emit AllGather q) /\
  ((PostAllreduceSum_forward (mk_group true p r) xs q).1.1 = Raise RuntimeError /\
   (PostAllreduceSum_forward (mk_group true p r) xs q).2 = q).
Proof.
  intros Hp Hr Hxs. destruct (Hxs r Hr) as [Hsh Hwf]. split.
  - unfold PreAllreduceSum_forward.
    cbn [get_world_size initialised size rank].
    destruct (Nat.leb_spec p 1); [lia|].
    unfold torch_empty. cbn [shape data]. unfold numel. rewrite Hsh.
    rewrite (torch_chunk_even p 1) by lia.
    rewrite (all_gather_fills (mk_group true p r) xs 1
               (fun j => mk_view (j * 1 * numel_of [numel_of []]) [1; numel_of []])).
    + split; reflexivity.
    + exact Hr.
    + intros j _. cbn. lia.
    + intros j _. reflexivity.
    + intros j Hj. destruct (Hxs j Hj) as [Hs Hw].
      unfold well_formed, numel in *. rewrite Hs in *. auto.
    + rewrite length_replicate. cbn. lia.
  - unfold PostAllreduceSum_forward, post_forward_chunks.
    cbn [get_world_size initialised size rank].
    destruct (Nat.leb_spec p 1); [lia|].
    rewrite Hsh. split; reflexivity.
Qed.

Lemma scalars_shapes j : j < 2 -> shape (scalars j) = [] /\ well_formed (scalars j).
Proof. intros _. split; reflexivity. Qed.

Lemma scalar_is_refused_witness :
  (PreAllreduceSum_forward (mk_group true 2 0) scalars Examples.fresh).1.1
    = Raise IndexError /\
  (PreAllreduceSum_forward (mk_group true 2 0) scalars Examples.fresh).2
    = emit AllGather Examples.fresh.
Proof.
  refine (proj1 (scalar_is_refused 2 0 scalars Examples.fresh _ _ scalars_shapes)).
  - lia.
  - lia.
Defined.

Lemma pre_forward_ctx grp xs p :
  1 < get_world_size grp ->
  (PreAllreduceSum_forward grp xs p).1.2
  = mk_sum_ctx grp (get_world_size grp) (Some (shape (xs (rank grp)))) None.
Proof.
  intros Hp. unfold PreAllreduceSum_forward.
  destruct (Nat.leb_spec (get_world_size grp) 1); [lia|].
  destruct (torch_chunk _ _); [|reflexivity].
  destruct (all_gather _ _ _ _); [|reflexivity].
  destruct (shape (xs (rank grp))); reflexivity.
Qed.

(** X17: [PreAllreduceSum.backward] needs a gradient whose element count
    is a multiple of the group size. In a group of P > 1, on the context
    saved by the forward, a gradient that does not split into P rows makes
    [doutput.view(P, -1)] raise RuntimeError, and no reduce-scatter is
    issued. *)
Theorem expand_backward_needs_rows grp xs gs p q :
  1 < get_world_size grp ->
  numel (gs (rank grp)) mod get_world_size grp <> 0 ->
  PreAllreduceSum_backward (PreAllreduceSum_forward grp xs p).1.2 gs q
  = (Raise RuntimeError, q).
Proof.
  intros Hp Hmod. rewrite pre_forward_ctx by exact Hp.
  unfold PreAllreduceSum_backward, pre_backward_chunks, view_rows.
  cbn [ctx_group ctx_num_nodes ctx_input_shape].
  destruct (Nat.leb_spec (get_world_size grp) 1); [lia|].
  destruct (Nat.ltb_spec 0 (get_world_size grp)); [|lia].
  destruct (Nat.eqb_spec (numel (gs (rank grp)) mod get_world_size grp) 0);
    [contradiction|].
  reflexivity.
Qed.

Lemma expand_backward_needs_rows_witness :
  PreAllreduceSum_backward
    (PreAllreduceSum_forward (Examples.pair 0) Examples.ramp Examples.fresh).1.2
    triple Examples.fresh
  = (Raise RuntimeError, Examples.fresh).
Proof.
  apply expand_backward_needs_rows.
  - vm_compute. lia.
  - vm_compute. discriminate.
Defined.

(** ** Shapes of the results *)

Lemma reduced_shard_length p r gs n rest :
  0 < p -> r < p ->
  (forall j, j < p -> shape (gs j) = n * p :: rest /\ well_formed (gs j)) ->
  length (reduced_shard p r gs) = n * numel_of rest.
Proof.
  intros Hp Hr Hgs.
  rewrite (reduced_shard_shape p r gs n rest) by (auto; apply Hgs; exact Hr).
  unfold vsum. apply length_foldl_vadd; [apply length_replicate|].
  apply Forall_fmap, Forall_forall. intros w Hw. apply elem_of_seq in Hw. cbn.
  destruct (Hgs w) as [Hs Hwf]; [lia|].
  unfold well_formed, numel in Hwf. rewrite Hs, numel_cons in Hwf.
  apply (length_block p r (gs w) (n * numel_of rest)); [exact Hr| |].
  - rewrite Hwf. lia.
  - unfold numel. rewrite Hs, numel_cons. lia.
Qed.

(** X18: the operators return well-formed tensors: the number of elements
    matches the shape. In a group of P > 1 on well-formed tensors of one
    shape, this holds for the concatenation that
    [PreAllreduceSum.forward] returns (P times the elements of the input),
    for the shard that [PostAllreduceSum.forward] returns (a P-th of
    them) and for what the all-to-all with the standard backend returns
    (as many as the input). *)
Theorem results_are_well_formed p r xs gs q n rest :
  1 < p -> r < p ->
  (forall j, j < p -> shape (xs j) = n :: rest /\ well_formed (xs j)) ->
  (forall j, j < p -> shape (gs j) = n * p :: rest /\ well_formed (gs j)) ->
  a2a_type q = 1%Z ->
  (well_formed (value (PreAllreduceSum_forward (mk_group true p r) xs q).1.1) /\
   numel (value (PreAllreduceSum_forward (mk_group true p r) xs q).1.1)
     = p * numel (xs r)) /\
  (well_formed (value (PostAllreduceSum_forward (mk_group true p r) gs q).1.1) /\
   p * numel (value (PostAllreduceSum_forward (mk_group true p r) gs q).1.1)
     = numel (gs r)) /\
  (well_formed (value (AllToAll_forward true (mk_group true p r) gs q).1.1) /\
   shape (value (AllToAll_forward true (mk_group true p r) gs q).1.1)
     = shape (gs r)).
Proof.
  intros Hp Hr Hxs Hgs Hq.
  destruct (Hxs r Hr) as [Hsx Hwx]. destruct (Hgs r Hr) as [Hsg Hwg].
  rewrite (pre_forward_gathers p r xs q n rest) by assumption.
  rewrite (post_forward_reduces p r gs q n rest) by assumption.
  rewrite (forward_standard p r n rest gs q) by (auto; intros; apply Hgs; lia).
  cbn [fst value]. unfold well_formed, numel. cbn [shape data].
  rewrite Hsx, Hsg, !numel_cons.
  split; [|split].
  - rewrite (gathered_length p xs (n * numel_of rest)).
    + lia.
    + intros j Hj. destruct (Hxs j Hj) as [Hs Hw].
      unfold well_formed, numel in Hw. rewrite Hs in Hw. exact Hw.
  - rewrite (reduced_shard_length p r gs n rest) by (auto; lia). lia.
  - split; [|reflexivity]. unfold exchanged.
    rewrite (length_concat_blocks _ (n * numel_of rest)); [lia|].
    intros j Hj. destruct (Hgs j Hj) as [Hs Hw].
    apply (length_block p r (gs j) (n * numel_of rest)); [exact Hr| |].
    + unfold well_formed, numel in Hw. rewrite Hs, numel_cons in Hw. lia.
    + unfold numel. rewrite Hs, numel_cons. lia.
Qed.

Lemma results_are_well_formed_witness :
  well_formed (value (PostAllreduceSum_forward (mk_group true 2 1) Examples.ramp4
                        Examples.fresh).1.1) /\
  2 * numel (value (PostAllreduceSum_forward (mk_group true 2 1) Examples.ramp4
                      Examples.fresh).1.1)
    = numel (Examples.ramp4 1).
Proof.
  refine (proj1 (proj2 (results_are_well_formed 2 1 Examples.ramp Examples.ramp4
            Examples.fresh 2 [1] _ _ ramp_shapes ramp4_shapes eq_refl))).
  - lia.
  - lia.
Defined.

(** ** The pass-through backend *)

Lemma prepare_type_zero has grp p :
  a2a_type (prepare has grp p) = 0%Z -> trace (prepare has grp p) = trace p.
Proof.
  destruct p as [pr t tr]. unfold prepare. cbn [prepared a2a_type trace].
  destruct pr; [reflexivity|].
  destruct (negb has && (Z.land t 1 =? 1)%Z); cbn [prepared a2a_type trace].
  - destruct (Z.eqb_spec (Z.land (Z.lxor t 3) 2) 2) as [H2|H2]; cbn [andb].
    + destruct (1 <? get_world_size grp); [|reflexivity].
      unfold emit_if, emit. destruct (get_world_rank grp =? 0);
        cbn [a2a_type]; intros H; rewrite H in H2; discriminate H2.
    + reflexivity.
  - destruct (Z.eqb_spec (Z.land t 2) 2) as [H2|H2]; cbn [andb].
    + destruct (1 <? get_world_size grp); [|reflexivity].
      unfold emit_if, emit. destruct (get_world_rank grp =? 0);
        cbn [a2a_type]; intros H; rewrite H in H2; discriminate H2.
    + reflexivity.
Qed.

(** X21: when the backend in effect after the first-call block is the
    pass-through ([a2a_type = 0]), [AllToAll.forward] returns its input
    and adds no event, whatever the size of the group. This is the case
    for a requested [a2a_type] of 0, and also for a requested 3 in a
    process without [all_to_all_single]: the first call turns 3 into 0 and
    no data is exchanged any more. *)
Theorem pass_through_exchanges_nothing has grp xs p :
  a2a_type (prepare has grp p) = 0%Z ->
  (AllToAll_forward has grp xs p).1.1 = Ok (xs (rank grp)) /\
  trace (AllToAll_forward has grp xs p).2 = trace p /\
  a2a_type (AllToAll_forward has grp xs p).2 = 0%Z.
Proof.
  intros H0. pose proof (prepare_type_zero has grp p H0) as Htr.
  unfold AllToAll_forward. rewrite H0. change (0 =? 0)%Z with true.
  rewrite orb_true_r. cbn [fst snd]. auto.
Qed.

Lemma pass_through_exchanges_nothing_witness :
  (AllToAll_forward false (Examples.pair 0) Examples.ramp (mk_process false 3 [])).1.1
    = Ok (Examples.ramp (rank (Examples.pair 0))) /\
  trace (AllToAll_forward false (Examples.pair 0) Examples.ramp
           (mk_process false 3 [])).2 = trace (mk_process false 3 []) /\
  a2a_type (AllToAll_forward false (Examples.pair 0) Examples.ramp
              (mk_process false 3 [])).2 = 0%Z.
Proof.
  apply pass_through_exchanges_nothing. reflexivity.
Defined.

End CommunicateMore.
